(** * pike: backend groups, selection policies and health checks

    A shallow embedding of the routing core of the proxy:

    - [Proxy]    : the [Director] of package [proxy] (host/prefix matching,
                   priority, the select functions, [doCheck], [HealthCheck]
                   and the monitor loop [StartHealthCheck]);
    - [Upstream] : package [upstream] ([createUpstreamFromBackend], the target
                   picker of [createProxyHandler] and [Upstream.Match]).

    Go values are modelled as follows.  A [uint32] is a [Z] kept in
    [0, 2^32) with the wrap-around written out; a [string] is a Rocq
    [string] (a sequence of bytes); a slice is a [list]; the global
    [map[string]SelectFunc] is a [gmap string SelectFunc]; a run-time panic
    is a constructor of [outcome].  Mutation of a [*Director] is explicit
    state passing. *)

From Stdlib Require Import ZArith Lia Ascii.
From stdpp Require Import base strings gmap list.

Open Scope string_scope.
Open Scope list_scope.

(** ** Go primitives shared by both packages *)

Module Go.

(** [uint32(x)]: conversion of an integer to 32 bits. *)
Definition uint32 (x : Z) : Z := (x mod 2 ^ 32)%Z.

(** Run-time panics that the modelled code can raise. *)
Inductive panic : Type :=
| DivideByZero
| IndexOutOfRange
| RegexpMustCompile (pattern : string).

(** Result of a call that either returns or panics. *)
Inductive outcome (A : Type) : Type :=
| Done (a : A)
| Panics (p : panic).
Arguments Done {A} a.
Arguments Panics {A} p.

Definition bind {A B} (o : outcome A) (k : A -> outcome B) : outcome B :=
  match o with
  | Done a => k a
  | Panics p => Panics p
  end.

(** [strings.HasPrefix(s, prefix)]. *)
Definition HasPrefix (s pre : string) : bool := String.prefix pre s.

(** [hash/fnv] [New32a]: the 32-bit FNV-1a hash, one byte at a time. *)
Definition offset32 : Z := 2166136261.
Definition prime32 : Z := 16777619.

Definition fnv1a_byte (h : Z) (b : ascii) : Z :=
  uint32 (Z.lxor h (Z.of_N (N_of_ascii b)) * prime32).

Fixpoint fnv1a_write (h : Z) (s : string) : Z :=
  match s with
  | EmptyString => h
  | String b rest => fnv1a_write (fnv1a_byte h b) rest
  end.

(** [hash(s)] of both packages: [h := fnv.New32a(); h.Write(s); h.Sum32()]. *)
Definition hash (s : string) : Z := fnv1a_write offset32 s.

(** [dash.FindStringIndex]: index of the first element equal to [target],
    [-1] when there is none. *)
Fixpoint FindStringIndex (collection : list string) (target : string) : Z :=
  match collection with
  | [] => (-1)%Z
  | x :: rest =>
      if String.eqb x target then 0%Z
      else
        let i := FindStringIndex rest target in
        if (i =? -1)%Z then (-1)%Z else (i + 1)%Z
  end.

(** [dash.IncludesString]. *)
Definition IncludesString (collection : list string) (target : string) : bool :=
  negb (FindStringIndex collection target =? -1)%Z.

(** [append(s[0:index], s[index+1:]...)] for an index found in [s]. *)
Definition remove_at (s : list string) (index : Z) : list string :=
  take (Z.to_nat index) s ++ drop (Z.to_nat (index + 1)) s.

(** [s[i], s[j] = s[j], s[i]]: both elements are read, with the bounds
    checks of the slice, before either is written. *)
Definition swap_at {A : Type} (s : list A) (i j : nat) : outcome (list A) :=
  match s !! i, s !! j with
  | Some a, Some b => Done (<[j := a]> (<[i := b]> s))
  | _, _ => Panics IndexOutOfRange
  end.

End Go.

Import Go.

(** ** Package proxy: the Director *)

Module Proxy.

Record Director : Type := mkDirector {
  Name : string;
  Policy : string;
  Ping : string;
  Backends : list string;
  availableBackends : list string;
  Hosts : list string;
  Prefixs : list string;
  Priority : Z;
  roubin : Z
}.

Definition set_Backends (d : Director) (v : list string) : Director :=
  mkDirector (Name d) (Policy d) (Ping d) v (availableBackends d)
             (Hosts d) (Prefixs d) (Priority d) (roubin d).

Definition set_availableBackends (d : Director) (v : list string) : Director :=
  mkDirector (Name d) (Policy d) (Ping d) (Backends d) v
             (Hosts d) (Prefixs d) (Priority d) (roubin d).

Definition set_Hosts (d : Director) (v : list string) : Director :=
  mkDirector (Name d) (Policy d) (Ping d) (Backends d) (availableBackends d)
             v (Prefixs d) (Priority d) (roubin d).

Definition set_Prefixs (d : Director) (v : list string) : Director :=
  mkDirector (Name d) (Policy d) (Ping d) (Backends d) (availableBackends d)
             (Hosts d) v (Priority d) (roubin d).

Definition set_Priority (d : Director) (v : Z) : Director :=
  mkDirector (Name d) (Policy d) (Ping d) (Backends d) (availableBackends d)
             (Hosts d) (Prefixs d) v (roubin d).

Definition set_roubin (d : Director) (v : Z) : Director :=
  mkDirector (Name d) (Policy d) (Ping d) (Backends d) (availableBackends d)
             (Hosts d) (Prefixs d) (Priority d) v.

(** The part of [echo.Context] that the select functions read. *)
Record Context : Type := mkContext {
  RealIP : string
}.

(** [SelectFunc]: [func(echo.Context, *Director) uint32].  The extra
    argument is the value that [rand.Uint32()] returns during the call;
    the returned director carries the mutation of [d.roubin]. *)
Abbreviation SelectFunc := (Context -> Z -> Director -> Z * Director)%type.

Definition selectFirst : SelectFunc := fun _ _ d => (0%Z, d).

Definition selectRandom : SelectFunc := fun _ rnd d => (uint32 rnd, d).

(** [atomic.AddUint32(&d.roubin, 1)] returns the new value. *)
Definition selectRoundRobin : SelectFunc :=
  fun _ _ d =>
    let n := uint32 (roubin d + 1) in
    (n, set_roubin d n).

Definition selectIPHash : SelectFunc := fun c _ d => (hash (RealIP c), d).

(** [AddSelect]. *)
Definition AddSelect (name : string) (fn : SelectFunc)
           (m : gmap string SelectFunc) : gmap string SelectFunc :=
  <[name := fn]> m.

(** [selectFuncMap] after the package's [init]. *)
Definition selectFuncMap : gmap string SelectFunc :=
  AddSelect "ipHash" selectIPHash
    (AddSelect "roundRobin" selectRoundRobin
       (AddSelect "random" selectRandom
          (AddSelect "first" selectFirst ∅))).

(** [RefreshPriority]. *)
Definition RefreshPriority (d : Director) : Director :=
  let priority := 8%Z in
  let priority :=
    if negb (length (Hosts d) =? 0)%nat then (priority - 4)%Z else priority in
  let priority :=
    if negb (length (Prefixs d) =? 0)%nat then (priority - 2)%Z else priority in
  set_Priority d priority.

Definition AddBackend (backend : string) (d : Director) : Director :=
  let backends := Backends d in
  if negb (IncludesString backends backend)
  then set_Backends d (backends ++ [backend])
  else d.

Definition RemoveBackend (backend : string) (d : Director) : Director :=
  let backends := Backends d in
  let index := FindStringIndex backends backend in
  if negb (index =? -1)%Z
  then set_Backends d (remove_at backends index)
  else d.

Definition AddAvailableBackend (backend : string) (d : Director) : Director :=
  let backends := availableBackends d in
  if negb (IncludesString backends backend)
  then set_availableBackends d (backends ++ [backend])
  else d.

Definition RemoveAvailableBackend (backend : string) (d : Director) : Director :=
  let backends := availableBackends d in
  let index := FindStringIndex backends backend in
  if negb (index =? -1)%Z
  then set_availableBackends d (remove_at backends index)
  else d.

Definition GetAvailableBackends (d : Director) : list string :=
  availableBackends d.

Definition AddHost (host : string) (d : Director) : Director :=
  let hosts := Hosts d in
  if negb (IncludesString hosts host)
  then RefreshPriority (set_Hosts d (hosts ++ [host]))
  else d.

Definition RemoveHost (host : string) (d : Director) : Director :=
  let hosts := Hosts d in
  let index := FindStringIndex hosts host in
  if negb (index =? -1)%Z
  then RefreshPriority (set_Hosts d (remove_at hosts index))
  else d.

Definition AddPrefix (prefix : string) (d : Director) : Director :=
  let prefixs := Prefixs d in
  if negb (IncludesString prefixs prefix)
  then RefreshPriority (set_Prefixs d (prefixs ++ [prefix]))
  else d.

Definition RemovePrefix (prefix : string) (d : Director) : Director :=
  let prefixs := Prefixs d in
  let index := FindStringIndex prefixs prefix in
  if negb (index =? -1)%Z
  then RefreshPriority (set_Prefixs d (remove_at prefixs index))
  else d.

(** [Select].  A nil entry of the map returns the empty string; otherwise
    the select function runs (and may bump [roubin]) before the index is
    reduced modulo [count], a division that panics when [count] is zero. *)
Definition Select (funcs : gmap string SelectFunc) (c : Context) (rnd : Z)
           (d : Director) : outcome string * Director :=
  match funcs !! Policy d with
  | None => (Done "", d)
  | Some fn =>
      let availableBackends := GetAvailableBackends d in
      let count := uint32 (Z.of_nat (length availableBackends)) in
      let '(index, d') := fn c rnd d in
      if (count =? 0)%Z then (Panics DivideByZero, d')
      else
        match availableBackends !! Z.to_nat (index mod count) with
        | Some backend => (Done backend, d')
        | None => (Panics IndexOutOfRange, d')
        end
  end.

(** *** Matching

    [regexp] is Go's standard library: a pattern either compiles to a
    regular expression or [MustCompile] panics, and [Match] searches the
    input for a match of the expression. *)

Section Matching.

Context {Regexp : Type}.
Variable regexp_Compile : string -> option Regexp.
Variable regexp_Match : Regexp -> string -> bool.

Definition regexp_MustCompile (item : string) : outcome Regexp :=
  match regexp_Compile item with
  | Some reg => Done reg
  | None => Panics (RegexpMustCompile item)
  end.

(** The loop over [hosts]: it stops at the first pattern that matches, so
    later patterns are not compiled. *)
Fixpoint match_hosts (hosts : list string) (host : string) (match_ : bool)
  : outcome bool :=
  match hosts with
  | [] => Done match_
  | item :: rest =>
      if match_ then Done match_
      else
        bind (regexp_MustCompile item) (fun reg =>
          match_hosts rest host (if regexp_Match reg host then true else match_))
  end.

(** The loop over [prefixs]. *)
Fixpoint match_prefixs (prefixs : list string) (uri : string) (match_ : bool)
  : bool :=
  match prefixs with
  | [] => match_
  | item :: rest =>
      match_prefixs rest uri
        (if negb match_ && HasPrefix uri item then true else match_)
  end.

(** [Director.Match]. *)
Definition Match (d : Director) (host uri : string) : outcome bool :=
  let hosts := Hosts d in
  let prefixs := Prefixs d in
  if (length hosts =? 0)%nat && (length prefixs =? 0)%nat then Done true
  else
    bind (if negb (length hosts =? 0)%nat
          then match_hosts hosts host false
          else Done false) (fun match_ =>
      if negb (length hosts =? 0)%nat && negb match_ then Done match_
      else
        if negb (length prefixs =? 0)%nat
        then Done (match_prefixs prefixs uri false)
        else Done match_).

End Matching.

(** *** Health checks

    The network met by [http.Client.Get]: [reply url k] is what the
    [k]-th call of [client.Get] with [url] returns, and [sent] counts the
    calls made with each URL so far. *)

Inductive response : Type :=
| RespError
| RespStatus (statusCode : Z).

Record Net : Type := mkNet {
  reply : string -> nat -> response;
  sent : gmap string nat
}.

Definition client_Get (url : string) (net : Net) : response * Net :=
  let k := default 0%nat (sent net !! url) in
  (reply net url k, mkNet (reply net) (<[url := S k]> (sent net))).

(** Value that one attempt sends on the channel: 0 fails, 1 passes. *)
Definition attempt_value (resp : response) : Z :=
  match resp with
  | RespError => 0
  | RespStatus statusCode =>
      if (200 <=? statusCode)%Z && (statusCode <? 400)%Z then 1 else 0
  end.

(** The goroutine of [doCheck]: the values sent on [c] before [close(c)],
    for a loop of [n] iterations. *)
Fixpoint doCheck_send (n : nat) (url : string) (net : Net) : list Z * Net :=
  match n with
  | O => ([], net)
  | S n' =>
      let '(resp, net1) := client_Get url net in
      let '(c, net2) := doCheck_send n' url net1 in
      (attempt_value resp :: c, net2)
  end.

(** [doCheck]: the receiver adds up what arrives on the channel. *)
Definition doCheck (url : string) (net : Net) : bool * Net :=
  let '(c, net') := doCheck_send 5 url net in
  let successCount := foldl Z.add 0%Z c in
  ((3 <=? successCount)%Z, net').

(** Body of the goroutine that [HealthCheck] starts for one backend. *)
Definition check_backend (backend : string) (st : Director * Net)
  : Director * Net :=
  let '(d, net) := st in
  let url := backend +:+ Ping d in
  let '(healthy, net') := doCheck url net in
  if healthy then (AddAvailableBackend backend d, net')
  else (RemoveAvailableBackend backend d, net').

(** [HealthCheck]: one goroutine per element of [d.Backends].  The
    goroutines update the director under its mutex in an order chosen by
    the scheduler; [order] is that order, a rearrangement of the backends
    read when the cycle starts.  A goroutine probes its own URL only, so
    its probe and its update are taken as one step. *)
Definition HealthCheck (order : list string) (st : Director * Net)
  : Director * Net :=
  foldl (fun st backend => check_backend backend st) st order.

(** *** The monitor loop

    What happens at a tick of the ticker, as [StartHealthCheck] meets it.
    The cycle runs, and its goroutines finish in some order; or
    [d.HealthCheck()] panics in the goroutine of the loop, before it
    starts a goroutine; or one of the goroutines that the cycle started
    panics, after the goroutines of [finished] have made their updates. *)

Inductive Cycle : Type :=
| CycleRuns (order : list string)
| CycleFaults (err : string)
| GoroutineFaults (finished : list string) (err : string).

Inductive Event : Type :=
| EvNewTicker (interval : Z)
| EvHealthCheck
| EvRecover (err : string)
| EvSleep (duration : Z)
| EvExit (err : string).

(** Where a call of [StartHealthCheck] stands when the ticks delivered so
    far are used up: blocked on the channel of its ticker; gone with the
    process, which the Go runtime ends on a panic that no deferred call
    of the panicking goroutine recovers; or still inside the chain of
    recover, sleep and restart, more calls deep than were followed. *)
Inductive Status : Type :=
| WaitingForTick
| ProcessExited (err : string)
| StillRestarting.

(** A run: its events, its status, the director and the network it
    leaves, and the time spent in [time.Sleep], in nanoseconds. *)
Record Run : Type := mkRun {
  trace : list Event;
  status : Status;
  final : Director * Net;
  slept : Z
}.

(** Events and sleeping time that come before the rest of a run. *)
Definition emit (events : list Event) (duration : Z) (r : Run) : Run :=
  mkRun (events ++ trace r) (status r) (final r) (duration + slept r).

(** [time.Second], in nanoseconds. *)
Definition Second : Z := 1000000000.

(** The panic of [time.NewTicker] on an interval that is not positive. *)
Definition newTickerPanic : string := "non-positive interval for NewTicker".

(** [for _ = range ticker.C { d.HealthCheck() }] under the deferred
    function of [StartHealthCheck].  A panic of [d.HealthCheck()] leaves
    the loop and is recovered by the deferred function, which sleeps for
    a second and calls [StartHealthCheck] again: [restart] is that call.
    A panic in a goroutine started by the cycle is not in reach of the
    deferred function: the process ends.  The channel of a [time.Ticker]
    is never closed, so the loop has no other exit. *)
Fixpoint serve (restart : list Cycle -> Director * Net -> Run)
         (ticks : list Cycle) (st : Director * Net) : Run :=
  match ticks with
  | [] => mkRun [] WaitingForTick st 0
  | CycleRuns order :: rest =>
      emit [EvHealthCheck] 0 (serve restart rest (HealthCheck order st))
  | CycleFaults err :: rest =>
      emit [EvHealthCheck; EvRecover err; EvSleep Second] Second
           (restart rest st)
  | GoroutineFaults finished err :: rest =>
      mkRun [EvHealthCheck; EvExit err] (ProcessExited err)
            (HealthCheck finished st) 0
  end.

(** [StartHealthCheck].  Each restart is a call nested in the deferred
    function of the call before it; [depth] bounds how many nested calls
    are followed.  [time.NewTicker] panics on an interval that is not
    positive, after the deferred function is in place, so that panic is
    recovered like any other. *)
Fixpoint StartHealthCheck (depth : nat) (interval : Z) (ticks : list Cycle)
         (st : Director * Net) : Run :=
  match depth with
  | O => mkRun [] StillRestarting st 0
  | S depth' =>
      if (interval <=? 0)%Z
      then emit [EvRecover newTickerPanic; EvSleep Second] Second
                (StartHealthCheck depth' interval ticks st)
      else emit [EvNewTicker interval] 0
                (serve (StartHealthCheck depth' interval) ticks st)
  end.

(** *** Sorting the directors

    [Directors] as a [sort.Interface]. *)

Definition Len (s : list Director) : nat := length s.

Definition Swap (s : list Director) (i j : nat) : outcome (list Director) :=
  swap_at s i j.

Definition Less (s : list Director) (i j : nat) : outcome bool :=
  match s !! i, s !! j with
  | Some a, Some b => Done (Priority a <? Priority b)%Z
  | _, _ => Panics IndexOutOfRange
  end.

End Proxy.

(** ** Package upstream *)

Module Upstream.

Definition backupTag : string := "|backup".
Definition policyFirst : string := "first".
Definition policyRandom : string := "random".
Definition policyRoundRobin : string := "roundRobin".
Definition policyLeastconn : string := "leastconn".
Definition policyIPHash : string := "ipHash".
Definition headerHashPrefix : string := "header:".
Definition cookieHashPrefix : string := "cookie:".

(** The two errors of the package, by their messages. *)
Inductive Error : Type :=
| errNoMatchUpstream
| errNoAvailableUpstream.

(** [Backend]: one entry of the configuration file. *)
Record Backend : Type := mkBackend {
  bName : string;
  bPolicy : string;
  bPing : string;
  bRequestHeader : list string;
  bHeader : list string;
  bPrefixs : list string;
  bHosts : list string;
  bBackends : list string;
  bRewrites : list string
}.

(** [strings.Contains]. *)
Fixpoint Contains (s substr : string) : bool :=
  String.prefix substr s ||
  match s with
  | EmptyString => false
  | String _ rest => Contains rest substr
  end.

(** [strings.Replace(s, old, new, 1)] for a non-empty [old]: the first
    occurrence of [old] is replaced. *)
Fixpoint Replace1 (s old new : string) : string :=
  if String.prefix old s
  then new +:+ String.substring (String.length old)
                                (String.length s - String.length old) s
  else
    match s with
    | EmptyString => EmptyString
    | String b rest => String b (Replace1 rest old new)
    end.

(** [textproto.CanonicalMIMEHeaderKey], used by [http.Header.Get]: a key
    made of token bytes gets an upper-case letter at its start and after
    each hyphen and lower-case letters elsewhere; any other key is kept. *)
Definition isTokenByte (b : ascii) : bool :=
  let n := N_of_ascii b in
  ((48 <=? n) && (n <=? 57) || (65 <=? n) && (n <=? 90)
   || (97 <=? n) && (n <=? 122)
   || existsb (N.eqb n) [33; 35; 36; 37; 38; 39; 42; 43; 45; 46; 94; 95; 96; 124; 126])%N.

Fixpoint allTokenBytes (s : string) : bool :=
  match s with
  | EmptyString => true
  | String b rest => isTokenByte b && allTokenBytes rest
  end.

Fixpoint canonicalize (upper : bool) (s : string) : string :=
  match s with
  | EmptyString => EmptyString
  | String b rest =>
      let n := N_of_ascii b in
      let b' :=
        if upper && (97 <=? n)%N && (n <=? 122)%N then ascii_of_N (n - 32)
        else if negb upper && (65 <=? n)%N && (n <=? 90)%N then ascii_of_N (n + 32)
        else b in
      String b' (canonicalize (n =? 45)%N rest)
  end.

Definition CanonicalMIMEHeaderKey (s : string) : string :=
  if allTokenBytes s then canonicalize true s else s.

(** The part of [cod.Context] that the package reads: the client address,
    [Request.Host], [Request.RequestURI], [Request.Header] (a map from
    canonical keys to their values) and the cookies of the request, in the
    order net/http reads them. *)
Record Context : Type := mkContext {
  RealIP : string;
  Host : string;
  RequestURI : string;
  Header : gmap string (list string);
  Cookies : list (string * string)
}.

(** [c.GetRequestHeader(key)], that is [c.Request.Header.Get(key)]. *)
Definition GetRequestHeader (c : Context) (key : string) : string :=
  match Header c !! CanonicalMIMEHeaderKey key with
  | Some (v :: _) => v
  | _ => ""
  end.

(** [c.Cookie(key)]: the value of the first cookie of that name, [None]
    for [http.ErrNoCookie] (a nil cookie). *)
Fixpoint findCookie (cookies : list (string * string)) (key : string)
  : option string :=
  match cookies with
  | [] => None
  | (name, value) :: rest =>
      if String.eqb name key then Some value else findCookie rest key
  end.

Definition Cookie (c : Context) (key : string) : option string :=
  findCookie (Cookies c) key.

(** What the target picker asks of the [up.HTTP] server. *)
Inductive Pick : Type :=
| CallPolicyFirst
| CallPolicyRandom
| CallPolicyRoundRobin
| CallPolicyLeastconn
| CallGetAvailableUpstream (index : Z).

(** [policy[len(prefix):]]. *)
Definition after (pre policy : string) : string :=
  String.substring (String.length pre)
                   (String.length policy - String.length pre) policy.

(** The [switch policy] of the function built by [createProxyHandler],
    with [isHeaderPolicy], [isCookiePolicy] and [key] computed as the
    handler is created. *)
Definition pick (policy : string) (c : Context) : Pick :=
  let isHeaderPolicy := HasPrefix policy headerHashPrefix in
  let isCookiePolicy :=
    negb isHeaderPolicy && HasPrefix policy cookieHashPrefix in
  let key :=
    if isHeaderPolicy then after headerHashPrefix policy
    else if isCookiePolicy then after cookieHashPrefix policy
    else "" in
  if String.eqb policy policyFirst then CallPolicyFirst
  else if String.eqb policy policyRandom then CallPolicyRandom
  else if String.eqb policy policyRoundRobin then CallPolicyRoundRobin
  else if String.eqb policy policyLeastconn then CallPolicyLeastconn
  else if String.eqb policy policyIPHash
       then CallGetAvailableUpstream (hash (RealIP c))
  else
    let index :=
      if isHeaderPolicy then hash (GetRequestHeader c key)
      else if isCookiePolicy then
        match Cookie c key with
        | Some value => hash value
        | None => 0%Z
        end
      else 0%Z in
    CallGetAvailableUpstream index.

(** The end of the target picker: a nil result is the error
    [errNoAvailableUpstream], any other result gives its URL. *)
Definition pickResult {URL : Type} (result : option URL) : Error + URL :=
  match result with
  | None => inl errNoAvailableUpstream
  | Some url => inr url
  end.

(** [Upstream], over the types of the libraries it embeds: the [up.HTTP]
    server and [http.Header]. *)
Record Upstream (HTTP HTTPHeader : Type) : Type := mkUpstream {
  Policy : string;
  Priority : Z;
  Name : string;
  uHeader : option HTTPHeader;
  uRequestHeader : option HTTPHeader;
  server : HTTP;
  Hosts : list string;
  Prefixs : list string;
  Rewrites : list string
}.
Arguments mkUpstream {HTTP HTTPHeader}.
Arguments Policy {HTTP HTTPHeader}.
Arguments Priority {HTTP HTTPHeader}.
Arguments Name {HTTP HTTPHeader}.
Arguments uHeader {HTTP HTTPHeader}.
Arguments uRequestHeader {HTTP HTTPHeader}.
Arguments server {HTTP HTTPHeader}.
Arguments Hosts {HTTP HTTPHeader}.
Arguments Prefixs {HTTP HTTPHeader}.
Arguments Rewrites {HTTP HTTPHeader}.

Section Construction.

(** The libraries met by [createUpstreamFromBackend]: the server of
    [github.com/vicanso/upstream], [strings.TrimSpace] and
    [util.ConvertToHTTPHeader] (nil is [None]). *)
Context {HTTP HTTPHeader : Type}.
Variable HTTP_new : string -> HTTP.
Variable HTTP_Add : HTTP -> string -> HTTP.
Variable HTTP_AddBackup : HTTP -> string -> HTTP.
Variable TrimSpace : string -> string.
Variable ConvertToHTTPHeader : list string -> option HTTPHeader.

(** The loop over [backend.Backends]. *)
Definition addBackends (uh : HTTP) (items : list string) : HTTP :=
  foldl (fun uh item =>
           let backup := Contains item backupTag in
           let item := if backup then Replace1 item backupTag "" else item in
           let item := TrimSpace item in
           if backup then HTTP_AddBackup uh item else HTTP_Add uh item)
        uh items.

(** [createUpstreamFromBackend]. *)
Definition createUpstreamFromBackend (backend : Backend)
  : Upstream HTTP HTTPHeader :=
  let priority := 8%Z in
  let priority :=
    if negb (length (bHosts backend) =? 0)%nat then (priority - 4)%Z
    else priority in
  let priority :=
    if negb (length (bPrefixs backend) =? 0)%nat then (priority - 2)%Z
    else priority in
  let uh := addBackends (HTTP_new (bPing backend)) (bBackends backend) in
  let policy :=
    if String.eqb (bPolicy backend) "" then policyRoundRobin
    else bPolicy backend in
  mkUpstream policy priority (bName backend)
             (ConvertToHTTPHeader (bHeader backend))
             (ConvertToHTTPHeader (bRequestHeader backend))
             uh (bHosts backend) (bPrefixs backend) (bRewrites backend).

End Construction.

(** The loops of [Upstream.Match]. *)
Fixpoint foundHost (hosts : list string) (currentHost : string) : bool :=
  match hosts with
  | [] => false
  | host :: rest =>
      if String.eqb currentHost host then true else foundHost rest currentHost
  end.

Fixpoint foundPrefix (prefixs : list string) (url : string) : bool :=
  match prefixs with
  | [] => false
  | prefix :: rest =>
      if HasPrefix url prefix then true else foundPrefix rest url
  end.

(** [Upstream.Match]. *)
Definition Match {HTTP HTTPHeader : Type} (us : Upstream HTTP HTTPHeader)
           (c : Context) : bool :=
  let hosts := Hosts us in
  if negb (length hosts =? 0)%nat && negb (foundHost hosts (Host c)) then false
  else
    let prefixs := Prefixs us in
    if negb (length prefixs =? 0)%nat
       && negb (foundPrefix prefixs (RequestURI c))
    then false
    else true.

(** [Upstreams] as a [sort.Interface]. *)

Definition Len {HTTP HTTPHeader : Type} (s : list (Upstream HTTP HTTPHeader))
  : nat := length s.

Definition Swap {HTTP HTTPHeader : Type} (s : list (Upstream HTTP HTTPHeader))
           (i j : nat) : outcome (list (Upstream HTTP HTTPHeader)) :=
  swap_at s i j.

Definition Less {HTTP HTTPHeader : Type} (s : list (Upstream HTTP HTTPHeader))
           (i j : nat) : outcome bool :=
  match s !! i, s !! j with
  | Some a, Some b => Done (Priority a <? Priority b)%Z
  | _, _ => Panics IndexOutOfRange
  end.

(** The loop of [Proxy]: the first upstream of the list that matches. *)
Fixpoint findUpstream {HTTP HTTPHeader : Type}
         (upstreams : list (Upstream HTTP HTTPHeader)) (c : Context)
  : option (Upstream HTTP HTTPHeader) :=
  match upstreams with
  | [] => None
  | item :: rest => if Match item c then Some item else findUpstream rest c
  end.

(** [Proxy], over the global list [upstreams]; [Handler us] is the handler
    that [NewUpstream] stores in [us.Handler]. *)
Definition Proxy {HTTP HTTPHeader R : Type}
           (Handler : Upstream HTTP HTTPHeader -> Context -> R)
           (upstreams : list (Upstream HTTP HTTPHeader)) (c : Context)
  : Error + R :=
  match findUpstream upstreams c with
  | None => inl errNoMatchUpstream
  | Some found => inr (Handler found c)
  end.

End Upstream.

Import Proxy.

(** ** Notions used to state the properties *)

(** The first occurrence of [target] removed from a list. *)
Fixpoint remove_first (target : string) (l : list string) : list string :=
  match l with
  | [] => []
  | x :: rest =>
      if String.eqb x target then rest else x :: remove_first target rest
  end.

(** The live backends are among the configured ones. *)
Definition live_subset (d : Director) : Prop :=
  availableBackends d ⊆ Backends d.

(** The priority as a function of the two rule lists. *)
Definition priority_of (hosts prefixs : list string) : Z :=
  (8 - (if hosts is [] then 0 else 4) - (if prefixs is [] then 0 else 2))%Z.

(** The stored priority agrees with the rule lists. *)
Definition priority_fresh (d : Director) : Prop :=
  Priority d = priority_of (Proxy.Hosts d) (Proxy.Prefixs d).

(** The four operations that change the rule lists. *)
Inductive RuleOp : Type :=
| OpAddHost (host : string)
| OpRemoveHost (host : string)
| OpAddPrefix (prefix : string)
| OpRemovePrefix (prefix : string).

Definition apply_op (op : RuleOp) (d : Director) : Director :=
  match op with
  | OpAddHost host => AddHost host d
  | OpRemoveHost host => RemoveHost host d
  | OpAddPrefix prefix => AddPrefix prefix d
  | OpRemovePrefix prefix => RemovePrefix prefix d
  end.

(** A string added to a list that does not have it. *)
Definition add_str (t : string) (l : list string) : list string :=
  if IncludesString l t then l else l ++ [t].

(** The search of a compiled pattern in a host; a pattern that does not
    compile matches nothing. *)
Definition regexp_search {Regexp : Type}
           (regexp_Compile : string -> option Regexp)
           (regexp_Match : Regexp -> string -> bool)
           (pattern host : string) : bool :=
  match regexp_Compile pattern with
  | Some reg => regexp_Match reg host
  | None => false
  end.

(** Hosts added, or removed, one after the other. *)
Definition add_hosts (hosts : list string) (d : Director) : Director :=
  foldl (fun d host => AddHost host d) d hosts.

Definition remove_hosts (hosts : list string) (d : Director) : Director :=
  foldl (fun d host => RemoveHost host d) d hosts.

(** Consecutive calls of [Select] on the same director, one for each
    element of [draws]: the element is what [rand.Uint32()] returns during
    that call. *)
Fixpoint Select_run (draws : list Z) (c : Proxy.Context) (d : Director)
  : list (outcome string) * Director :=
  match draws with
  | [] => ([], d)
  | rnd :: rest =>
      let '(r, d1) := Select selectFuncMap c rnd d in
      let '(rs, d2) := Select_run rest c d1 in
      (r :: rs, d2)
  end.

(** What [Select] returns when it reads index [i] of the live list. *)
Definition read_live (live : list string) (i : nat) : outcome string :=
  match live !! i with
  | Some backend => Done backend
  | None => Panics IndexOutOfRange
  end.

(** Index that the [k]-th of a run of round-robin selections reads, for a
    counter that holds [c0] before the run and [n] live backends. *)
Definition rr_index (c0 : Z) (n : nat) (k : nat) : nat :=
  Z.to_nat ((c0 + Z.of_nat k) mod Z.of_nat n).

(** An attempt passes exactly on a response whose status is in [200, 400). *)
Definition attempt_ok (resp : response) : bool :=
  match resp with
  | RespError => false
  | RespStatus statusCode => bool_decide (200 ≤ statusCode < 400)%Z
  end.

(** The answers that the next [n] requests to [url] receive. *)
Definition next_replies (n : nat) (url : string) (net : Net) : list response :=
  (fun i => reply net url (default 0%nat (sent net !! url) + i)%nat) <$> seq 0 n.

(** How many of the next [n] requests to [url] pass. *)
Definition successes (n : nat) (url : string) (net : Net) : nat :=
  length (filter (fun resp => attempt_ok resp) (next_replies n url net)).

(** Number of health checks that a trace of the monitor records. *)
Fixpoint checks_run (tr : list Event) : nat :=
  match tr with
  | [] => 0
  | EvHealthCheck :: rest => S (checks_run rest)
  | _ :: rest => checks_run rest
  end.

(** ** Notions used to state further properties *)

(** [sort.IsSorted] on a list of upstreams: no element is less than the
    one before it. *)
Definition IsSorted {HTTP HTTPHeader : Type}
           (s : list (Upstream.Upstream HTTP HTTPHeader)) : Prop :=
  ∀ i a b, s !! i = Some a → s !! S i = Some b →
           (Upstream.Priority b <? Upstream.Priority a)%Z = false.

(** Two directors that differ at most in their live backends. *)
Definition same_but_live (d d' : Director) : Prop :=
  set_availableBackends d' (availableBackends d) = d.

(** The orders of all the cycles of a run stay within a list of backends. *)
Definition orders_within (backends : list string) (ticks : list Cycle) : Prop :=
  Forall (fun t => match t with
                   | CycleRuns order => order ⊆ backends
                   | CycleFaults _ => True
                   | GoroutineFaults finished _ => finished ⊆ backends
                   end) ticks.






(** A value of type [uint32]. *)
Definition is_uint32 (x : Z) : Prop := (0 ≤ x < 2 ^ 32)%Z.

(** ** Sample values *)

(** A group of three backends, all live, with a fresh round-robin counter. *)
Definition three_live : Director :=
  mkDirector "api" "roundRobin" "/ping" ["s1"; "s2"; "s3"] ["s1"; "s2"; "s3"]
             [] [] 8 0.

(** The same group under the policy random. *)
Definition three_random : Director :=
  mkDirector "api" "random" "/ping" ["s1"; "s2"; "s3"] ["s1"; "s2"; "s3"]
             [] [] 8 0.

(** The same group with no live backend, under a given policy. *)
Definition none_live (policy : string) : Director :=
  mkDirector "api" policy "/ping" ["s1"; "s2"; "s3"] [] [] [] 8 0.

Definition a_client : Proxy.Context := Proxy.mkContext "10.0.0.7".

(** A network on which s1 always answers 200, s2 answers 500 on its first
    two requests and 204 afterwards, and s3 never answers. *)
Definition a_net : Net :=
  mkNet (fun url k =>
           if String.eqb url "s1/ping" then RespStatus 200
           else if String.eqb url "s2/ping"
                then (if (k <? 2)%nat then RespStatus 500 else RespStatus 204)
                else RespError)
        ∅.

(** A catch-all group whose stored priority is up to date. *)
Definition catch_all : Director :=
  mkDirector "web" "first" "/ping" ["s1"] ["s1"] [] [] 8 0.

(** A stand-in for [regexp] on patterns without operators: such a pattern
    compiles to itself and is found in a host as a substring; a pattern
    with an open parenthesis does not compile. *)
Definition literal_Compile (pattern : string) : option string :=
  if Upstream.Contains pattern "(" then None else Some pattern.

Definition literal_Match (reg host : string) : bool :=
  Upstream.Contains host reg.

(** A group with two host patterns and two prefixes. *)
Definition api_group : Director :=
  mkDirector "api" "first" "/ping" ["s1"] ["s1"]
             ["example"; "internal"] ["/api"; "/v2"] 2 0.

(** A group whose second host pattern does not compile. *)
Definition broken_group : Director :=
  mkDirector "api" "first" "/ping" ["s1"] ["s1"]
             ["example"; "(internal"] ["/api"] 2 0.

(** A stand-in for the server of [github.com/vicanso/upstream]: its ping
    path and the addresses added to it, each with its backup flag. *)
Definition plain_new (ping : string) : string * list (string * bool) :=
  (ping, []).

Definition plain_Add (uh : string * list (string * bool)) (item : string)
  : string * list (string * bool) :=
  (uh.1, uh.2 ++ [(item, false)]).

Definition plain_AddBackup (uh : string * list (string * bool)) (item : string)
  : string * list (string * bool) :=
  (uh.1, uh.2 ++ [(item, true)]).

(** [strings.TrimSpace] on ASCII text. *)
Definition isSpace (b : ascii) : bool :=
  let n := N_of_ascii b in
  ((9 <=? n) && (n <=? 13) || (n =? 32))%N.

Fixpoint trimLeft (s : string) : string :=
  match s with
  | EmptyString => EmptyString
  | String b rest => if isSpace b then trimLeft rest else s
  end.

Fixpoint trimRight (s : string) : string :=
  match s with
  | EmptyString => EmptyString
  | String b rest =>
      match trimRight rest with
      | EmptyString => if isSpace b then EmptyString else String b EmptyString
      | r => String b r
      end
  end.

Definition ascii_TrimSpace (s : string) : string := trimRight (trimLeft s).

(** A stand-in for [util.ConvertToHTTPHeader]: the lines themselves, nil
    for an empty list. *)
Definition plain_Convert (lines : list string) : option (list string) :=
  if lines is [] then None else Some lines.

Definition plain_create (backend : Upstream.Backend)
  : Upstream.Upstream (string * list (string * bool)) (list string) :=
  Upstream.createUpstreamFromBackend
    plain_new plain_Add plain_AddBackup ascii_TrimSpace plain_Convert backend.

(** Entries of a configuration file: one without a policy, one with a
    policy that no code knows. *)
Definition cfg_no_policy : Upstream.Backend :=
  Upstream.mkBackend "web" "" "/ping" [] [] ["/web"] []
                     ["http://10.0.0.1:80"; " http://10.0.0.2:80|backup "] [].

Definition cfg_unknown_policy : Upstream.Backend :=
  Upstream.mkBackend "web" "fastest" "/ping" [] [] [] []
                     ["http://10.0.0.1:80"] [].

(** An entry with a host, and the router of the three entries in the
    order of their priorities; the handler of these upstreams answers
    with the name of the upstream. *)
Definition cfg_api : Upstream.Backend :=
  Upstream.mkBackend "api" "first" "/ping" [] [] [] ["api.example.com"]
                     ["http://10.0.1.1:80"] [].

Definition routes
  : list (Upstream.Upstream (string * list (string * bool)) (list string)) :=
  [plain_create cfg_api; plain_create cfg_no_policy;
   plain_create cfg_unknown_policy].

Definition name_handler
           (us : Upstream.Upstream (string * list (string * bool)) (list string))
           (c : Upstream.Context) : string :=
  Upstream.Name us.

(** A director with the same unknown policy and one live backend. *)
Definition unknown_policy_group : Director :=
  mkDirector "web" "fastest" "/ping" ["s1"] ["s1"] [] [] 8 0.

(** Requests: one without any header or cookie, one with both. *)
Definition bare_request : Upstream.Context :=
  Upstream.mkContext "10.0.0.7" "example.com" "/" ∅ [].

Definition tagged_request : Upstream.Context :=
  Upstream.mkContext "10.0.0.7" "example.com" "/"
                     {[ "X-User" := ["alice"] ]} [("sid", "42")].

(** ** Facts about the list helpers *)

Section ListHelpers.

Implicit Types (l : list string) (t : string).

Lemma FindStringIndex_ge l t : (-1 ≤ FindStringIndex l t)%Z.
Proof.
  induction l as [|x l IH]; simpl; [lia|].
  destruct (String.eqb x t); [lia|].
  destruct (Z.eqb_spec (FindStringIndex l t) (-1)); lia.
Qed.

Lemma FindStringIndex_none l t : FindStringIndex l t = (-1)%Z ↔ t ∉ l.
Proof.
  induction l as [|x l IH]; simpl.
  - split; [intros _; apply not_elem_of_nil | done].
  - destruct (String.eqb_spec x t) as [->|Hne].
    + split; [lia | intros H; exfalso; apply H; left].
    + pose proof (FindStringIndex_ge l t) as Hge.
      destruct (Z.eqb_spec (FindStringIndex l t) (-1)) as [E|E].
      * split; [|done]. intros _. rewrite not_elem_of_cons.
        split; [congruence | by apply IH].
      * split; [lia|]. rewrite not_elem_of_cons. intros [_ Hin].
        apply IH in Hin. lia.
Qed.

Lemma IncludesString_spec l t : IncludesString l t = true ↔ t ∈ l.
Proof.
  unfold IncludesString. rewrite negb_true_iff, Z.eqb_neq.
  rewrite FindStringIndex_none. split; [|tauto].
  intros H. by destruct (decide (t ∈ l)).
Qed.

Lemma IncludesString_false l t : IncludesString l t = false ↔ t ∉ l.
Proof.
  rewrite <- IncludesString_spec. destruct (IncludesString l t); split; congruence || done.
Qed.

(** Cutting out the index that [FindStringIndex] returns removes the first
    occurrence. *)
Lemma remove_at_found l t :
  FindStringIndex l t ≠ (-1)%Z →
  remove_at l (FindStringIndex l t) = remove_first t l.
Proof.
  unfold remove_at. induction l as [|x l IH]; simpl; [done|].
  destruct (String.eqb x t); [intros _; simpl; by rewrite drop_0|].
  pose proof (FindStringIndex_ge l t).
  destruct (Z.eqb_spec (FindStringIndex l t) (-1)) as [E|E]; [done|].
  intros _.
  replace (Z.to_nat (FindStringIndex l t + 1))
    with (S (Z.to_nat (FindStringIndex l t))) by lia.
  replace (Z.to_nat (FindStringIndex l t + 1 + 1))
    with (S (Z.to_nat (FindStringIndex l t + 1))) by lia.
  simpl. f_equal. by apply IH.
Qed.

Lemma remove_first_absent l t : t ∉ l → remove_first t l = l.
Proof.
  induction l as [|x l IH]; simpl; [done|].
  rewrite not_elem_of_cons. intros [Hne H].
  destruct (String.eqb_spec x t); [congruence|]. by rewrite IH.
Qed.

Lemma remove_first_subseteq l t : remove_first t l ⊆ l.
Proof.
  induction l as [|x l IH]; simpl; [done|].
  destruct (String.eqb x t).
  - intros y Hy. by right.
  - intros y Hy. apply elem_of_cons in Hy as [->|Hy]; [left | right; by apply IH].
Qed.

Lemma remove_first_app_r l1 l2 t :
  t ∉ l1 → remove_first t (l1 ++ l2) = l1 ++ remove_first t l2.
Proof.
  induction l1 as [|x l1 IH]; simpl; [done|].
  rewrite not_elem_of_cons. intros [Hne H].
  destruct (String.eqb_spec x t); [congruence|]. by rewrite IH.
Qed.

Lemma remove_first_other l t x : x ≠ t → x ∈ l → x ∈ remove_first t l.
Proof.
  intros Hne. induction l as [|y l IH]; simpl; [done|].
  intros Hx. destruct (String.eqb_spec y t) as [->|Hyt].
  - apply elem_of_cons in Hx as [->|Hx]; [done | done].
  - apply elem_of_cons in Hx as [->|Hx]; [left | right; by apply IH].
Qed.

End ListHelpers.

(** The operations on the lists of a director, without the index. *)

Lemma RemoveBackend_eq backend d :
  RemoveBackend backend d = set_Backends d (remove_first backend (Backends d)).
Proof.
  unfold RemoveBackend.
  destruct (Z.eqb_spec (FindStringIndex (Backends d) backend) (-1)) as [E|E]; simpl.
  - apply FindStringIndex_none in E. rewrite remove_first_absent by done.
    by destruct d.
  - by rewrite remove_at_found.
Qed.

Lemma RemoveAvailableBackend_eq backend d :
  RemoveAvailableBackend backend d
  = set_availableBackends d (remove_first backend (availableBackends d)).
Proof.
  unfold RemoveAvailableBackend.
  destruct (Z.eqb_spec (FindStringIndex (availableBackends d) backend) (-1))
    as [E|E]; simpl.
  - apply FindStringIndex_none in E. rewrite remove_first_absent by done.
    by destruct d.
  - by rewrite remove_at_found.
Qed.

Lemma AddAvailableBackend_live backend d :
  availableBackends (AddAvailableBackend backend d)
  = if IncludesString (availableBackends d) backend
    then availableBackends d
    else availableBackends d ++ [backend].
Proof.
  unfold AddAvailableBackend.
  by destruct (IncludesString (availableBackends d) backend).
Qed.

Lemma AddAvailableBackend_Backends backend d :
  Backends (AddAvailableBackend backend d) = Backends d.
Proof.
  unfold AddAvailableBackend.
  by destruct (IncludesString (availableBackends d) backend).
Qed.

(** ** Selection from an empty live set *)

(** With a registered policy and no live backend, [count] is zero and the
    reduction of the index divides by zero. *)
Lemma Select_no_live funcs fn c rnd d :
  funcs !! Proxy.Policy d = Some fn →
  availableBackends d = [] →
  (Select funcs c rnd d).1 = Panics DivideByZero.
Proof.
  intros Hfn Hlive. unfold Select, GetAvailableBackends.
  rewrite Hfn, Hlive. simpl. by destruct (fn c rnd d).
Qed.

(** With a live backend, a registered policy and an index within 32
    bits, [Select] returns one of the live backends. *)
Lemma Select_live funcs fn c rnd d :
  funcs !! Proxy.Policy d = Some fn →
  (0 < length (availableBackends d))%nat →
  (Z.of_nat (length (availableBackends d)) < 2 ^ 32)%Z →
  ∃ backend, (Select funcs c rnd d).1 = Done backend
             ∧ backend ∈ availableBackends d.
Proof.
  intros Hfn Hn Hn32. unfold Select, GetAvailableBackends, uint32.
  rewrite Hfn. destruct (fn c rnd d) as [index d'].
  rewrite Z.mod_small by lia.
  destruct (Z.eqb_spec (Z.of_nat (length (availableBackends d))) 0); [lia|].
  pose proof (Z.mod_pos_bound index (Z.of_nat (length (availableBackends d)))).
  destruct (lookup_lt_is_Some_2 (availableBackends d)
              (Z.to_nat (index `mod` Z.of_nat (length (availableBackends d)))))
    as [backend Hb]; [lia|].
  rewrite Hb. exists backend. split; [done|].
  by apply list_elem_of_lookup_2 in Hb.
Qed.

(** C1: selecting from an empty live set under each of the four registered
    policies.  The claim asks for the error "no available backend" and no
    division by zero; [Director.Select] has no test for an empty list and
    evaluates [index % 0], a run-time panic, for every policy. *)
Theorem Select_empty_live_panics :
  (Select selectFuncMap a_client 0 (none_live "first")).1 = Panics DivideByZero
  ∧ (Select selectFuncMap a_client 7 (none_live "random")).1 = Panics DivideByZero
  ∧ (Select selectFuncMap a_client 0 (none_live "roundRobin")).1 = Panics DivideByZero
  ∧ (Select selectFuncMap a_client 0 (none_live "ipHash")).1 = Panics DivideByZero.
Proof. repeat split; vm_compute; reflexivity. Qed.

(** The other implementation turns a missing upstream into the error. *)
Lemma pickResult_nil (URL : Type) :
  Upstream.pickResult (URL := URL) None = inl Upstream.errNoAvailableUpstream.
Proof. reflexivity. Qed.

(** ** The live set and the configured backends *)

Lemma live_subset_AddBackend b d : live_subset d → live_subset (AddBackend b d).
Proof.
  unfold live_subset, AddBackend. intros H.
  destruct (IncludesString (Backends d) b); simpl; [done|].
  intros x Hx. apply elem_of_app. left. by apply H.
Qed.

Lemma live_subset_RemoveAvailableBackend b d :
  live_subset d → live_subset (RemoveAvailableBackend b d).
Proof.
  unfold live_subset. rewrite RemoveAvailableBackend_eq. simpl. intros H x Hx.
  apply H. by apply (remove_first_subseteq _ b).
Qed.

Lemma live_subset_AddAvailableBackend b d :
  b ∈ Backends d → live_subset d → live_subset (AddAvailableBackend b d).
Proof.
  unfold live_subset. intros Hb H.
  rewrite AddAvailableBackend_live, AddAvailableBackend_Backends.
  destruct (IncludesString (availableBackends d) b); [done|].
  intros x Hx. apply elem_of_app in Hx as [Hx|Hx]; [by apply H|].
  apply list_elem_of_singleton in Hx. by subst.
Qed.

Lemma live_subset_RemoveBackend b d :
  b ∉ availableBackends d → live_subset d → live_subset (RemoveBackend b d).
Proof.
  unfold live_subset. rewrite RemoveBackend_eq. simpl. intros Hb H x Hx.
  apply remove_first_other; [|by apply H]. intros ->. done.
Qed.

Lemma check_backend_Backends b d net :
  Backends (check_backend b (d, net)).1 = Backends d.
Proof.
  unfold check_backend. destruct (doCheck (b +:+ Ping d) net) as [[] net']; simpl.
  - apply AddAvailableBackend_Backends.
  - by rewrite RemoveAvailableBackend_eq.
Qed.

Lemma live_subset_check_backend b d net :
  b ∈ Backends d → live_subset d → live_subset (check_backend b (d, net)).1.
Proof.
  intros Hb H. unfold check_backend.
  destruct (doCheck (b +:+ Ping d) net) as [[] net']; simpl.
  - by apply live_subset_AddAvailableBackend.
  - by apply live_subset_RemoveAvailableBackend.
Qed.

Lemma live_subset_HealthCheck order st :
  order ⊆ Backends st.1 → live_subset st.1 →
  live_subset (HealthCheck order st).1
  ∧ Backends (HealthCheck order st).1 = Backends st.1.
Proof.
  unfold HealthCheck. revert st.
  induction order as [|b order IH]; intros [d net] Hsub H; [done|].
  pose proof (check_backend_Backends b d net) as HB.
  destruct (IH (check_backend b (d, net))) as [H1 H2].
  - rewrite HB. intros x Hx. apply Hsub. by right.
  - apply live_subset_check_backend; [apply Hsub; left | done].
  - cbn [foldl]. split; [done|]. by rewrite H2, HB.
Qed.

(** C2, as the code has it: the live set stays within the configured
    backends under [AddBackend], [RemoveAvailableBackend] and a cycle of
    [HealthCheck] in any order of its goroutines, under
    [AddAvailableBackend] of a configured backend, and under
    [RemoveBackend] of a backend that is not live. *)
Theorem live_subset_preserved d :
  live_subset d →
  (∀ b, live_subset (AddBackend b d))
  ∧ (∀ b, live_subset (RemoveAvailableBackend b d))
  ∧ (∀ b, b ∈ Backends d → live_subset (AddAvailableBackend b d))
  ∧ (∀ b, b ∉ availableBackends d → live_subset (RemoveBackend b d))
  ∧ (∀ order net, order ≡ₚ Backends d →
       live_subset (HealthCheck order (d, net)).1).
Proof.
  intros H. repeat split.
  - intros b. by apply live_subset_AddBackend.
  - intros b. by apply live_subset_RemoveAvailableBackend.
  - intros b Hb. by apply live_subset_AddAvailableBackend.
  - intros b Hb. by apply live_subset_RemoveBackend.
  - intros order net Hp. apply live_subset_HealthCheck; [|done].
    simpl. intros x Hx. by rewrite <- Hp.
Qed.

Lemma live_subset_preserved_witness :
  live_subset (AddBackend "s4" three_live)
  ∧ live_subset (AddAvailableBackend "s2" three_live)
  ∧ live_subset (HealthCheck ["s3"; "s1"; "s2"] (three_live, a_net)).1.
Proof.
  assert (H0 : live_subset three_live) by (intros x Hx; exact Hx).
  destruct (live_subset_preserved three_live H0) as (H1 & _ & H3 & _ & H5).
  split; [apply H1|]. split.
  - apply H3. simpl. right. left.
  - apply H5. simpl.
    apply (Permutation_trans (l' := ["s1"; "s3"; "s2"])).
    + apply Permutation_swap.
    + apply Permutation_skip, Permutation_swap.
Defined.

(** C2, as the claim has it, fails: the administrative [RemoveBackend]
    leaves the live list as it is, so a live backend that is removed stays
    live. *)
Lemma RemoveBackend_breaks_live_subset :
  live_subset three_live ∧ ¬ live_subset (RemoveBackend "s2" three_live).
Proof.
  split; [intros x Hx; exact Hx|].
  intros H. specialize (H "s2"). vm_compute in H.
  assert (Hin : "s2" ∈ ["s1"; "s2"; "s3"]) by (right; left).
  apply H in Hin.
  repeat (apply elem_of_cons in Hin as [Hin|Hin]; [discriminate|]).
  by apply elem_of_nil in Hin.
Qed.

(** ** Priority *)

Lemma priority_of_length hosts prefixs :
  priority_of hosts prefixs
  = ((if negb (length prefixs =? 0)%nat
      then (if negb (length hosts =? 0)%nat then 8 - 4 else 8) - 2
      else (if negb (length hosts =? 0)%nat then 8 - 4 else 8)))%Z.
Proof. by destruct hosts, prefixs. Qed.

Lemma RefreshPriority_Priority d :
  Priority (RefreshPriority d) = priority_of (Proxy.Hosts d) (Proxy.Prefixs d).
Proof.
  rewrite priority_of_length. unfold RefreshPriority. simpl.
  by destruct (length (Proxy.Hosts d) =? 0)%nat,
              (length (Proxy.Prefixs d) =? 0)%nat.
Qed.

Lemma RefreshPriority_fresh d : priority_fresh (RefreshPriority d).
Proof. unfold priority_fresh. by rewrite RefreshPriority_Priority. Qed.

(** An operation either changes nothing or ends with [RefreshPriority]. *)
Lemma apply_op_refreshes op d :
  apply_op op d = d ∨ priority_fresh (apply_op op d).
Proof.
  destruct op; simpl;
    unfold AddHost, RemoveHost, AddPrefix, RemovePrefix;
    match goal with |- (if ?b then _ else _) = _ ∨ _ => destruct b end;
    (by left) || (right; apply RefreshPriority_fresh).
Qed.

Lemma priority_fresh_apply_op op d :
  priority_fresh d → priority_fresh (apply_op op d).
Proof.
  intros H. destruct op; simpl;
    unfold AddHost, RemoveHost, AddPrefix, RemovePrefix;
    match goal with |- priority_fresh (if ?b then _ else _) => destruct b end;
    done || apply RefreshPriority_fresh.
Qed.

(** The rule lists after each operation. *)

Lemma AddHost_Hosts h d : Proxy.Hosts (AddHost h d) = add_str h (Proxy.Hosts d).
Proof.
  unfold AddHost, add_str. by destruct (IncludesString (Proxy.Hosts d) h).
Qed.

Lemma AddHost_Prefixs h d : Proxy.Prefixs (AddHost h d) = Proxy.Prefixs d.
Proof. unfold AddHost. by destruct (IncludesString (Proxy.Hosts d) h). Qed.

Lemma RemoveHost_Hosts h d :
  Proxy.Hosts (RemoveHost h d) = remove_first h (Proxy.Hosts d).
Proof.
  unfold RemoveHost.
  destruct (Z.eqb_spec (FindStringIndex (Proxy.Hosts d) h) (-1)) as [E|E]; simpl.
  - apply FindStringIndex_none in E. by rewrite remove_first_absent.
  - by rewrite remove_at_found.
Qed.

Lemma RemoveHost_Prefixs h d : Proxy.Prefixs (RemoveHost h d) = Proxy.Prefixs d.
Proof.
  unfold RemoveHost.
  by destruct (negb (FindStringIndex (Proxy.Hosts d) h =? -1)%Z).
Qed.

Lemma add_hosts_Hosts hs d :
  Proxy.Hosts (add_hosts hs d) = foldl (fun l h => add_str h l) (Proxy.Hosts d) hs.
Proof.
  unfold add_hosts. revert d.
  induction hs as [|h hs IH]; intros d; [done|].
  cbn [foldl]. by rewrite IH, AddHost_Hosts.
Qed.

Lemma remove_hosts_Hosts hs d :
  Proxy.Hosts (remove_hosts hs d)
  = foldl (fun l h => remove_first h l) (Proxy.Hosts d) hs.
Proof.
  unfold remove_hosts. revert d.
  induction hs as [|h hs IH]; intros d; [done|].
  cbn [foldl]. by rewrite IH, RemoveHost_Hosts.
Qed.

Lemma add_hosts_Prefixs hs d : Proxy.Prefixs (add_hosts hs d) = Proxy.Prefixs d.
Proof.
  unfold add_hosts. revert d.
  induction hs as [|h hs IH]; intros d; [done|].
  cbn [foldl]. by rewrite IH, AddHost_Prefixs.
Qed.

Lemma remove_hosts_Prefixs hs d :
  Proxy.Prefixs (remove_hosts hs d) = Proxy.Prefixs d.
Proof.
  unfold remove_hosts. revert d.
  induction hs as [|h hs IH]; intros d; [done|].
  cbn [foldl]. by rewrite IH, RemoveHost_Prefixs.
Qed.

Lemma add_hosts_fresh hs d : priority_fresh d → priority_fresh (add_hosts hs d).
Proof.
  unfold add_hosts. revert d.
  induction hs as [|h hs IH]; intros d H; [done|].
  cbn [foldl]. apply IH. exact (priority_fresh_apply_op (OpAddHost h) d H).
Qed.

Lemma remove_hosts_fresh hs d :
  priority_fresh d → priority_fresh (remove_hosts hs d).
Proof.
  unfold remove_hosts. revert d.
  induction hs as [|h hs IH]; intros d H; [done|].
  cbn [foldl]. apply IH. exact (priority_fresh_apply_op (OpRemoveHost h) d H).
Qed.

(** Adding strings to a list appends the new ones, each once. *)
Lemma add_all_shape (hs l : list string) :
  ∃ e, foldl (fun l h => add_str h l) l hs = l ++ e
       ∧ NoDup e ∧ e ⊆ hs ∧ (∀ x, x ∈ e → x ∉ l).
Proof.
  revert l. induction hs as [|h hs IH]; intros l; cbn [foldl].
  - exists []. rewrite app_nil_r. repeat split; [constructor | done |].
    intros x Hx. by apply elem_of_nil in Hx.
  - unfold add_str at 2.
    destruct (IncludesString l h) eqn:E.
    + destruct (IH l) as (e & He & Hnd & Hsub & Hdis).
      exists e. repeat split; [done | done | | done].
      intros x Hx. right. by apply Hsub.
    + apply IncludesString_false in E.
      destruct (IH (l ++ [h])) as (e & He & Hnd & Hsub & Hdis).
      exists (h :: e). repeat split.
      * by rewrite He, <- app_assoc.
      * constructor; [|done]. intros Hh. apply (Hdis h Hh).
        apply elem_of_app. right. left.
      * intros x Hx. apply elem_of_cons in Hx as [->|Hx]; [left|right; by apply Hsub].
      * intros x Hx. apply elem_of_cons in Hx as [->|Hx]; [done|].
        intros Hl. apply (Hdis x Hx). apply elem_of_app. by left.
Qed.

Lemma remove_first_NoDup t (e : list string) : NoDup e → NoDup (remove_first t e).
Proof.
  induction 1 as [|x e Hx Hnd IH]; simpl; [constructor|].
  destruct (String.eqb x t); [done|].
  constructor; [|done]. intros Hin. apply Hx.
  by apply (remove_first_subseteq _ t).
Qed.

Lemma remove_first_not_in t (e : list string) : NoDup e → t ∉ remove_first t e.
Proof.
  induction 1 as [|x e Hx Hnd IH]; simpl; [apply not_elem_of_nil|].
  destruct (String.eqb_spec x t) as [->|Hne]; [done|].
  apply not_elem_of_cons. split; [congruence | done].
Qed.

(** Removing every string of [hs] empties a duplicate-free part of [hs]. *)
Lemma remove_all_nil (hs e : list string) :
  NoDup e → e ⊆ hs → foldl (fun l h => remove_first h l) e hs = [].
Proof.
  revert e. induction hs as [|h hs IH]; intros e Hnd Hsub; cbn [foldl].
  - destruct e as [|x e]; [done|]. exfalso.
    assert (Hx : x ∈ []) by (apply Hsub; left). by apply elem_of_nil in Hx.
  - apply IH; [by apply remove_first_NoDup|].
    intros x Hx.
    assert (Hxe : x ∈ e) by (by apply (remove_first_subseteq _ h)).
    apply Hsub, elem_of_cons in Hxe as [->|Hxe]; [|done].
    exfalso. by apply (remove_first_not_in h e).
Qed.

Lemma remove_all_app (hs l e : list string) :
  (∀ h, h ∈ hs → h ∉ l) →
  foldl (fun l h => remove_first h l) (l ++ e) hs
  = l ++ foldl (fun l h => remove_first h l) e hs.
Proof.
  revert e. induction hs as [|h hs IH]; intros e Hdis; cbn [foldl]; [done|].
  rewrite remove_first_app_r by (apply Hdis; left).
  apply IH. intros x Hx. apply Hdis. by right.
Qed.

Lemma add_then_remove_all (hs l : list string) :
  (∀ h, h ∈ hs → h ∉ l) →
  foldl (fun l h => remove_first h l) (foldl (fun l h => add_str h l) l hs) hs = l.
Proof.
  intros Hdis. destruct (add_all_shape hs l) as (e & -> & Hnd & Hsub & _).
  rewrite remove_all_app by done.
  rewrite remove_all_nil by done. apply app_nil_r.
Qed.

Lemma RefreshPriority_eq d :
  RefreshPriority d
  = set_Priority d (priority_of (Proxy.Hosts d) (Proxy.Prefixs d)).
Proof.
  rewrite priority_of_length. unfold RefreshPriority.
  by destruct (length (Proxy.Hosts d) =? 0)%nat,
              (length (Proxy.Prefixs d) =? 0)%nat.
Qed.

(** An operation that finds nothing to do returns the director as it is;
    one that changes a list stores the new list and the priority of the
    new lists, and nothing else. *)
Lemma AddHost_effect h d :
  (h ∈ Proxy.Hosts d → AddHost h d = d)
  ∧ (h ∉ Proxy.Hosts d →
     AddHost h d
     = set_Priority (set_Hosts d (Proxy.Hosts d ++ [h]))
                    (priority_of (Proxy.Hosts d ++ [h]) (Proxy.Prefixs d))).
Proof.
  unfold AddHost. split; intros H.
  - apply IncludesString_spec in H. by rewrite H.
  - apply IncludesString_false in H. rewrite H. simpl.
    by rewrite RefreshPriority_eq.
Qed.

Lemma RemoveHost_effect h d :
  (h ∉ Proxy.Hosts d → RemoveHost h d = d)
  ∧ (h ∈ Proxy.Hosts d →
     RemoveHost h d
     = set_Priority (set_Hosts d (remove_first h (Proxy.Hosts d)))
                    (priority_of (remove_first h (Proxy.Hosts d))
                                 (Proxy.Prefixs d))).
Proof.
  unfold RemoveHost. split; intros H.
  - apply FindStringIndex_none in H. by rewrite H.
  - destruct (Z.eqb_spec (FindStringIndex (Proxy.Hosts d) h) (-1)) as [E|E].
    + by apply FindStringIndex_none in E.
    + simpl. by rewrite remove_at_found, RefreshPriority_eq.
Qed.

Lemma AddPrefix_effect p d :
  (p ∈ Proxy.Prefixs d → AddPrefix p d = d)
  ∧ (p ∉ Proxy.Prefixs d →
     AddPrefix p d
     = set_Priority (set_Prefixs d (Proxy.Prefixs d ++ [p]))
                    (priority_of (Proxy.Hosts d) (Proxy.Prefixs d ++ [p]))).
Proof.
  unfold AddPrefix. split; intros H.
  - apply IncludesString_spec in H. by rewrite H.
  - apply IncludesString_false in H. rewrite H. simpl.
    by rewrite RefreshPriority_eq.
Qed.

Lemma RemovePrefix_effect p d :
  (p ∉ Proxy.Prefixs d → RemovePrefix p d = d)
  ∧ (p ∈ Proxy.Prefixs d →
     RemovePrefix p d
     = set_Priority (set_Prefixs d (remove_first p (Proxy.Prefixs d)))
                    (priority_of (Proxy.Hosts d)
                                 (remove_first p (Proxy.Prefixs d)))).
Proof.
  unfold RemovePrefix. split; intros H.
  - apply FindStringIndex_none in H. by rewrite H.
  - destruct (Z.eqb_spec (FindStringIndex (Proxy.Prefixs d) p) (-1)) as [E|E].
    + by apply FindStringIndex_none in E.
    + simpl. by rewrite remove_at_found, RefreshPriority_eq.
Qed.

(** C5: the priority is 8, less 4 with a host pattern and less 2 with a
    prefix.  Each of the four operations on the rule lists, when it
    changes its list (a host or prefix that is new is appended, the first
    occurrence of one that is present is removed), stores with the new
    list the priority that this function gives the new lists, and changes
    nothing else; when it has nothing to change it returns the director
    as it is.  So a priority that is up to date stays so; and on a group
    whose priority is up to date, adding hosts it does not have and
    removing them again gives back its hosts and its priority. *)
Theorem priority_recomputed d :
  Priority (RefreshPriority d) = priority_of (Proxy.Hosts d) (Proxy.Prefixs d)
  ∧ (∀ op, apply_op op d = d ∨ priority_fresh (apply_op op d))
  ∧ (priority_fresh d →
     (∀ op, priority_fresh (apply_op op d))
     ∧ (∀ hosts, (∀ h, h ∈ hosts → h ∉ Proxy.Hosts d) →
          Proxy.Hosts (remove_hosts hosts (add_hosts hosts d)) = Proxy.Hosts d
          ∧ Priority (remove_hosts hosts (add_hosts hosts d)) = Priority d))
  ∧ (∀ h, h ∉ Proxy.Hosts d →
          AddHost h d
          = set_Priority (set_Hosts d (Proxy.Hosts d ++ [h]))
                         (priority_of (Proxy.Hosts d ++ [h]) (Proxy.Prefixs d)))
  ∧ (∀ h, h ∈ Proxy.Hosts d →
          RemoveHost h d
          = set_Priority (set_Hosts d (remove_first h (Proxy.Hosts d)))
                         (priority_of (remove_first h (Proxy.Hosts d))
                                      (Proxy.Prefixs d)))
  ∧ (∀ p, p ∉ Proxy.Prefixs d →
          AddPrefix p d
          = set_Priority (set_Prefixs d (Proxy.Prefixs d ++ [p]))
                         (priority_of (Proxy.Hosts d) (Proxy.Prefixs d ++ [p])))
  ∧ (∀ p, p ∈ Proxy.Prefixs d →
          RemovePrefix p d
          = set_Priority (set_Prefixs d (remove_first p (Proxy.Prefixs d)))
                         (priority_of (Proxy.Hosts d)
                                      (remove_first p (Proxy.Prefixs d))))
  ∧ (∀ h, h ∈ Proxy.Hosts d → AddHost h d = d)
  ∧ (∀ h, h ∉ Proxy.Hosts d → RemoveHost h d = d)
  ∧ (∀ p, p ∈ Proxy.Prefixs d → AddPrefix p d = d)
  ∧ (∀ p, p ∉ Proxy.Prefixs d → RemovePrefix p d = d).
Proof.
  split; [apply RefreshPriority_Priority|].
  split; [intros op; apply apply_op_refreshes|].
  split.
  { intros Hfresh. split; [intros op; by apply priority_fresh_apply_op|].
    intros hosts Hnew.
    assert (HH : Proxy.Hosts (remove_hosts hosts (add_hosts hosts d))
                 = Proxy.Hosts d).
    { rewrite remove_hosts_Hosts, add_hosts_Hosts. by apply add_then_remove_all. }
    split; [done|].
    pose proof (remove_hosts_fresh hosts _ (add_hosts_fresh hosts d Hfresh)) as Hf.
    unfold priority_fresh in Hf, Hfresh.
    by rewrite Hf, HH, remove_hosts_Prefixs, add_hosts_Prefixs, Hfresh. }
  split; [intros h; apply AddHost_effect|].
  split; [intros h; apply RemoveHost_effect|].
  split; [intros p; apply AddPrefix_effect|].
  split; [intros p; apply RemovePrefix_effect|].
  split; [intros h; apply AddHost_effect|].
  split; [intros h; apply RemoveHost_effect|].
  split; [intros p; apply AddPrefix_effect | intros p; apply RemovePrefix_effect].
Qed.

Lemma priority_recomputed_witness :
  Priority (AddHost "^api\." catch_all) = 4%Z
  ∧ Priority (remove_hosts ["^api\."; "^www\."]
                (add_hosts ["^api\."; "^www\."] catch_all)) = Priority catch_all.
Proof.
  destruct (priority_recomputed catch_all) as (_ & _ & H & Hadd & _).
  split.
  - rewrite Hadd; [reflexivity|]. simpl. apply not_elem_of_nil.
  - destruct (H eq_refl) as [_ Hround].
    apply Hround. intros h Hh. simpl. apply not_elem_of_nil.
Defined.

(** ** Matching *)

Section MatchFacts.

Context {Regexp : Type}.
Variable regexp_Compile : string -> option Regexp.
Variable regexp_Match : Regexp -> string -> bool.

Local Abbreviation search := (regexp_search regexp_Compile regexp_Match).

(** The host loop computes the disjunction over the patterns. *)
Lemma match_hosts_valid hosts host m :
  Forall (fun p => is_Some (regexp_Compile p)) hosts →
  match_hosts regexp_Compile regexp_Match hosts host m
  = Done (m || existsb (fun p => search p host) hosts).
Proof.
  intros Hvalid. revert m.
  induction Hvalid as [|p hosts [reg Hp] _ IH]; intros m; simpl.
  - by rewrite orb_false_r.
  - destruct m; [done|].
    unfold regexp_MustCompile, regexp_search. rewrite Hp. simpl.
    rewrite IH. by destruct (regexp_Match reg host).
Qed.

(** A pattern that does not compile, met before any match, panics. *)
Lemma match_hosts_invalid p hosts host :
  regexp_Compile p = None →
  match_hosts regexp_Compile regexp_Match (p :: hosts) host false
  = Panics (RegexpMustCompile p).
Proof. intros Hp. simpl. unfold regexp_MustCompile. by rewrite Hp. Qed.

(** The prefix loop computes the disjunction over the prefixes. *)
Lemma match_prefixs_spec prefixs uri m :
  match_prefixs prefixs uri m = m || existsb (HasPrefix uri) prefixs.
Proof.
  revert m. induction prefixs as [|p prefixs IH]; intros m; simpl.
  - by rewrite orb_false_r.
  - rewrite IH. by destruct m, (HasPrefix uri p).
Qed.

Lemma Match_valid d host uri :
  Forall (fun p => is_Some (regexp_Compile p)) (Proxy.Hosts d) →
  Proxy.Match regexp_Compile regexp_Match d host uri
  = Done ((if Proxy.Hosts d is [] then true
           else existsb (fun p => search p host) (Proxy.Hosts d))
          && (if Proxy.Prefixs d is [] then true
              else existsb (HasPrefix uri) (Proxy.Prefixs d))).
Proof.
  intros Hvalid. unfold Proxy.Match.
  destruct (Proxy.Hosts d) as [|h hosts] eqn:EH;
    destruct (Proxy.Prefixs d) as [|p prefixs] eqn:EP; cbn [length Nat.eqb andb negb].
  - done.
  - cbn [bind andb negb]. rewrite match_prefixs_spec. done.
  - rewrite match_hosts_valid by done. cbn [bind orb andb].
    by destruct (existsb _ (h :: hosts)).
  - rewrite match_hosts_valid by done. cbn [bind orb andb].
    destruct (existsb _ (h :: hosts)); cbn [negb andb]; [|done].
    by rewrite match_prefixs_spec.
Qed.

(** C3: on a group whose host patterns are regular expressions, [Match]
    returns; it returns true when the group has no host pattern and no
    prefix; and in general it returns true exactly when the host is matched
    by the search of at least one pattern, if there are patterns, and the
    path starts with at least one prefix, if there are prefixes. *)
Theorem Match_rules d host uri :
  Forall (fun p => is_Some (regexp_Compile p)) (Proxy.Hosts d) →
  ∃ b, Proxy.Match regexp_Compile regexp_Match d host uri = Done b
       ∧ (Proxy.Hosts d = [] → Proxy.Prefixs d = [] → b = true)
       ∧ (b = true ↔
          (Proxy.Hosts d = [] ∨ ∃ p, p ∈ Proxy.Hosts d ∧ search p host = true)
          ∧ (Proxy.Prefixs d = []
             ∨ ∃ p, p ∈ Proxy.Prefixs d ∧ HasPrefix uri p = true)).
Proof.
  intros Hvalid. eexists. split; [by apply Match_valid|]. split.
  - by intros -> ->.
  - rewrite andb_true_iff.
    apply (iff_trans (B := (Proxy.Hosts d = [] ∨ ∃ p, p ∈ Proxy.Hosts d ∧ search p host = true)
           ∧ (if Proxy.Prefixs d is [] then true
              else existsb (HasPrefix uri) (Proxy.Prefixs d)) = true));
      [apply and_iff_compat_r | apply and_iff_compat_l].
    + destruct (Proxy.Hosts d) as [|h hosts]; [by split; [left|]|].
      rewrite existsb_exists. split.
      * intros (p & Hin & Hp). right. exists p. split; [|done].
        by apply list_elem_of_In.
      * intros [|(p & Hin & Hp)]; [done|]. exists p.
        split; [by apply list_elem_of_In | done].
    + destruct (Proxy.Prefixs d) as [|q prefixs]; [by split; [left|]|].
      rewrite existsb_exists. split.
      * intros (p & Hin & Hp). right. exists p. split; [|done].
        by apply list_elem_of_In.
      * intros [|(p & Hin & Hp)]; [done|]. exists p.
        split; [by apply list_elem_of_In | done].
Qed.

End MatchFacts.

Lemma Match_rules_witness :
  ∃ b, Proxy.Match literal_Compile literal_Match api_group
                   "api.example.com" "/api/users" = Done b
       ∧ b = true.
Proof.
  destruct (Match_rules literal_Compile literal_Match api_group
              "api.example.com" "/api/users") as (b & Hb & _ & Hiff).
  - repeat constructor; eexists; vm_compute; reflexivity.
  - exists b. split; [exact Hb|]. apply Hiff. split; right.
    + exists "example". split; [left | vm_compute; reflexivity].
    + exists "/api". split; [left | vm_compute; reflexivity].
Defined.

(** [Upstream.Match] has the same shape, with equality of hosts in the
    place of the search. *)
Lemma Upstream_Match_rules {HTTP HTTPHeader : Type}
      (us : Upstream.Upstream HTTP HTTPHeader) (c : Upstream.Context) :
  Upstream.Match us c = true ↔
  (Upstream.Hosts us = [] ∨ Upstream.Host c ∈ Upstream.Hosts us)
  ∧ (Upstream.Prefixs us = []
     ∨ ∃ p, p ∈ Upstream.Prefixs us ∧ HasPrefix (Upstream.RequestURI c) p = true).
Proof.
  assert (HfoundHost : ∀ hosts h, Upstream.foundHost hosts h = true ↔ h ∈ hosts).
  { induction hosts as [|x hosts IH]; intros h; simpl.
    - split; [done | intros H; by apply elem_of_nil in H].
    - destruct (String.eqb_spec h x) as [->|Hne].
      + split; [intros _; left | done].
      + rewrite IH, elem_of_cons. split; [by right | by intros [|]]. }
  assert (HfoundPrefix : ∀ prefixs u, Upstream.foundPrefix prefixs u = true ↔
            ∃ p, p ∈ prefixs ∧ HasPrefix u p = true).
  { induction prefixs as [|x prefixs IH]; intros u; simpl.
    - split; [done | intros (p & H & _); by apply elem_of_nil in H].
    - destruct (HasPrefix u x) eqn:E.
      + split; [intros _; exists x; split; [left | done] | done].
      + rewrite IH. split.
        * intros (p & Hin & Hp). exists p. split; [by right | done].
        * intros (p & Hin & Hp). exists p. split; [|done].
          apply elem_of_cons in Hin as [->|Hin]; [congruence | done]. }
  unfold Upstream.Match.
  destruct (Upstream.Hosts us) as [|h hosts] eqn:EH;
    destruct (Upstream.Prefixs us) as [|q prefixs] eqn:EP;
    cbn [length Nat.eqb negb andb].
  - split; [by split; left | done].
  - destruct (Upstream.foundPrefix (q :: prefixs) (Upstream.RequestURI c)) eqn:E;
      cbn [negb].
    + apply HfoundPrefix in E. split; [by split; [left | right] | done].
    + split; [done|]. intros [_ [|H]]; [done|].
      apply HfoundPrefix in H. congruence.
  - destruct (Upstream.foundHost (h :: hosts) (Upstream.Host c)) eqn:E; cbn [negb].
    + apply HfoundHost in E. split; [by split; [right | left] | done].
    + split; [done|]. intros [[|H] _]; [done|].
      apply HfoundHost in H. congruence.
  - destruct (Upstream.foundHost (h :: hosts) (Upstream.Host c)) eqn:E; cbn [negb andb].
    + apply HfoundHost in E.
      destruct (Upstream.foundPrefix (q :: prefixs) (Upstream.RequestURI c)) eqn:E2;
        cbn [negb].
      * apply HfoundPrefix in E2. split; [by split; right | done].
      * split; [done|]. intros [_ [|H]]; [done|].
        apply HfoundPrefix in H. congruence.
    + split; [done|]. intros [[|H] _]; [done|].
      apply HfoundHost in H. congruence.
Qed.

(** ** Round robin *)

Lemma selectFuncMap_roundRobin :
  selectFuncMap !! "roundRobin" = Some selectRoundRobin.
Proof.
  unfold selectFuncMap, AddSelect.
  rewrite lookup_insert_ne by done. by rewrite lookup_insert_eq.
Qed.

(** One round-robin selection below the wrap of the counter. *)
Lemma Select_roundRobin_step c rnd d :
  Proxy.Policy d = "roundRobin" →
  (0 < length (availableBackends d))%nat →
  (Z.of_nat (length (availableBackends d)) < 2 ^ 32)%Z →
  (0 ≤ roubin d)%Z → (roubin d + 1 < 2 ^ 32)%Z →
  Select selectFuncMap c rnd d
  = (read_live (availableBackends d)
               (rr_index (roubin d) (length (availableBackends d)) 1),
     set_roubin d (roubin d + 1)).
Proof.
  intros HP Hn Hn32 Hc Hc32. unfold Select. rewrite HP, selectFuncMap_roundRobin.
  unfold GetAvailableBackends, selectRoundRobin, uint32.
  rewrite !Z.mod_small by lia.
  destruct (Z.eqb_spec (Z.of_nat (length (availableBackends d))) 0) as [E|_];
    [lia|].
  unfold read_live, rr_index. simpl Z.of_nat.
  by destruct (availableBackends d !! _).
Qed.

Lemma rr_index_shift c0 n k : rr_index c0 n (S k) = rr_index (c0 + 1) n k.
Proof. unfold rr_index. do 2 f_equal. lia. Qed.

Lemma Select_run_roundRobin c draws : ∀ d,
  Proxy.Policy d = "roundRobin" →
  (0 < length (availableBackends d))%nat →
  (Z.of_nat (length (availableBackends d)) < 2 ^ 32)%Z →
  (0 ≤ roubin d)%Z → (roubin d + Z.of_nat (length draws) < 2 ^ 32)%Z →
  Select_run draws c d
  = ((fun k => read_live (availableBackends d)
                 (rr_index (roubin d) (length (availableBackends d)) k))
       <$> seq 1 (length draws),
     set_roubin d (roubin d + Z.of_nat (length draws))).
Proof.
  induction draws as [|rnd draws IH]; intros d HP Hn Hn32 Hc Hc32.
  - simpl. rewrite Z.add_0_r. by destruct d.
  - cbn [Select_run length] in *.
    rewrite Select_roundRobin_step by (done || lia).
    rewrite IH by (simpl; done || lia). cbn [seq fmap list_fmap].
    f_equal.
    + f_equal. rewrite <- (fmap_S_seq 1 (length draws)), <- list_fmap_compose.
      apply list_fmap_ext. intros i k _. simpl.
      by rewrite rr_index_shift.
    + destruct d. unfold set_roubin. simpl. f_equal. lia.
Qed.

Lemma rr_index_lt c0 n k : (0 < n)%nat → (rr_index c0 n k < n)%nat.
Proof.
  intros Hn. unfold rr_index.
  pose proof (Z.mod_pos_bound (c0 + Z.of_nat k) (Z.of_nat n)). lia.
Qed.

Lemma rr_index_succ c0 n k :
  (0 < n)%nat → (0 ≤ c0)%Z →
  rr_index c0 n (S k) = ((rr_index c0 n k + 1) mod n)%nat.
Proof.
  intros Hn Hc. unfold rr_index. apply Nat2Z.inj.
  pose proof (Z.mod_pos_bound (c0 + Z.of_nat k) (Z.of_nat n)).
  pose proof (Z.mod_pos_bound (c0 + Z.of_nat (S k)) (Z.of_nat n)).
  rewrite Nat2Z.inj_mod, Nat2Z.inj_add, !Z2Nat.id by lia.
  rewrite Zplus_mod_idemp_l. f_equal. lia.
Qed.

Lemma rr_index_period c0 n k : rr_index c0 n (k + n) = rr_index c0 n k.
Proof.
  unfold rr_index. f_equal. rewrite Nat2Z.inj_add, Z.add_assoc.
  replace (c0 + Z.of_nat k + Z.of_nat n)%Z
    with (c0 + Z.of_nat k + 1 * Z.of_nat n)%Z by lia.
  apply Z_mod_plus_full.
Qed.

Lemma rr_index_inj c0 n j k :
  (0 < n)%nat → (1 ≤ j ≤ n)%nat → (1 ≤ k ≤ n)%nat →
  rr_index c0 n j = rr_index c0 n k → j = k.
Proof.
  intros Hn Hj Hk. unfold rr_index. intros E.
  pose proof (Z.mod_pos_bound (c0 + Z.of_nat j) (Z.of_nat n)) as Bj.
  pose proof (Z.mod_pos_bound (c0 + Z.of_nat k) (Z.of_nat n)) as Bk.
  apply Z2Nat.inj in E; [|lia|lia].
  assert (Hn0 : Z.of_nat n ≠ 0%Z) by lia.
  pose proof (Z.div_mod (c0 + Z.of_nat j) (Z.of_nat n) Hn0) as Dj.
  pose proof (Z.div_mod (c0 + Z.of_nat k) (Z.of_nat n) Hn0) as Dk.
  rewrite E in Dj.
  set (qj := ((c0 + Z.of_nat j) `div` Z.of_nat n)%Z) in *.
  set (qk := ((c0 + Z.of_nat k) `div` Z.of_nat n)%Z) in *.
  assert (qj = qk) as Eq by nia.
  rewrite Eq in Dj. lia.
Qed.

(** A run of [n] selections reads each index once. *)
Lemma rr_index_once c0 n :
  (0 < n)%nat → rr_index c0 n <$> seq 1 n ≡ₚ seq 0 n.
Proof.
  intros Hn. apply submseteq_length_Permutation.
  - apply NoDup_submseteq.
    + apply NoDup_fmap_2_strong; [|apply NoDup_seq].
      intros j k Hj Hk. apply elem_of_seq in Hj, Hk.
      apply rr_index_inj; lia.
    + intros x Hx. apply list_elem_of_fmap in Hx as (k & -> & _).
      apply elem_of_seq. pose proof (rr_index_lt c0 n k Hn). lia.
  - by rewrite length_fmap, !length_seq.
Qed.

(** C4, as the code has it: from a fresh counter the three live backends
    s1, s2, s3 are selected in the order s2, s3, s1; and as long as the
    32-bit counter does not wrap during the run, 2N selections over N live
    backends read the indices (c + k) mod N for k = 1 .. 2N, all within
    the list: the first N of them are the indices 0 .. N-1, each once,
    every index is the one before plus one modulo N, and the second N
    repeat the first. *)
Theorem roundRobin_cycle :
  (∀ r1 r2 r3,
     (Select_run [r1; r2; r3] a_client three_live).1
     = [Done "s2"; Done "s3"; Done "s1"])
  ∧ ∀ c d draws,
      let live := availableBackends d in
      let n := length live in
      let index := rr_index (roubin d) n in
      Proxy.Policy d = "roundRobin" →
      (0 < n)%nat →
      (0 ≤ roubin d)%Z → (roubin d + 2 * Z.of_nat n < 2 ^ 32)%Z →
      length draws = (2 * n)%nat →
      (Select_run draws c d).1
      = (fun k => read_live live (index k)) <$> seq 1 (2 * n)
      ∧ (∀ k, ∃ backend, read_live live (index k) = Done backend ∧ backend ∈ live)
      ∧ index <$> seq 1 n ≡ₚ seq 0 n
      ∧ (∀ k, index (S k) = ((index k + 1) mod n)%nat)
      ∧ (∀ k, index (k + n)%nat = index k).
Proof.
  split.
  { intros r1 r2 r3.
    rewrite Select_run_roundRobin by (done || (simpl; lia)). reflexivity. }
  intros c d draws live n index HP Hn Hc Hc32 Hlen. repeat split.
  - subst live n index. rewrite Select_run_roundRobin by (done || lia).
    by rewrite Hlen.
  - intros k. unfold read_live.
    destruct (lookup_lt_is_Some_2 live (index k)) as [backend Hb].
    { apply rr_index_lt. done. }
    rewrite Hb. exists backend. split; [done|].
    by apply list_elem_of_lookup_2 in Hb.
  - by apply rr_index_once.
  - intros k. by apply rr_index_succ.
  - intros k. apply rr_index_period.
Qed.

Lemma roundRobin_cycle_witness :
  (Select_run [11; 22; 33; 44; 55; 66]%Z a_client three_live).1
  = [Done "s2"; Done "s3"; Done "s1"; Done "s2"; Done "s3"; Done "s1"].
Proof.
  destruct roundRobin_cycle as [_ H].
  destruct (H a_client three_live [11; 22; 33; 44; 55; 66]%Z) as [Hrun _].
  - reflexivity.
  - simpl. lia.
  - simpl. lia.
  - simpl. lia.
  - reflexivity.
  - exact Hrun.
Defined.

(** C4, as the claim has it, fails at the wrap of the counter: with three
    live backends and the counter at 2^32 - 2, a 32-bit value that round
    robin reaches, the next three selections read index 0 twice in a row
    and never select s3, since 3 does not divide 2^32. *)
Lemma roundRobin_at_wrap :
  Proxy.Policy (set_roubin three_live (2 ^ 32 - 2)) = "roundRobin"
  ∧ is_uint32 (roubin (set_roubin three_live (2 ^ 32 - 2)))
  ∧ (Select_run [0; 0; 0]%Z a_client (set_roubin three_live (2 ^ 32 - 2))).1
    = [Done "s1"; Done "s1"; Done "s2"]
  ∧ Done "s3" ∉ (Select_run [0; 0; 0]%Z a_client
                   (set_roubin three_live (2 ^ 32 - 2))).1.
Proof.
  assert (H : (Select_run [0; 0; 0]%Z a_client
                 (set_roubin three_live (2 ^ 32 - 2))).1
              = [Done "s1"; Done "s1"; Done "s2"])
    by (vm_compute; reflexivity).
  split; [reflexivity|]. split; [unfold is_uint32; simpl; lia|].
  split; [exact H|]. rewrite H. intros Hin.
  repeat (apply elem_of_cons in Hin as [Hin|Hin]; [discriminate|]).
  by apply elem_of_nil in Hin.
Qed.

(** ** The probe *)

Lemma attempt_value_ok resp :
  attempt_value resp = (if attempt_ok resp then 1 else 0)%Z.
Proof.
  destruct resp as [|code]; simpl; [done|].
  destruct (Z.leb_spec 200 code), (Z.ltb_spec code 400); simpl;
    case_bool_decide; done || lia.
Qed.

Lemma attempt_value_sum (rs : list response) (acc : Z) :
  foldl Z.add acc (attempt_value <$> rs)
  = (acc + Z.of_nat (length (filter (fun resp => attempt_ok resp) rs)))%Z.
Proof.
  revert acc. induction rs as [|r rs IH]; intros acc; simpl; [lia|].
  rewrite IH, attempt_value_ok.
  destruct (attempt_ok r) eqn:E.
  - rewrite filter_cons_True by (rewrite E; exact I). simpl. lia.
  - rewrite filter_cons_False by (rewrite E; intros []). lia.
Qed.

(** The requests sent to each URL after [n] more requests to [url]. *)
Lemma doCheck_send_spec n : ∀ url net,
  doCheck_send n url net
  = (attempt_value <$> next_replies n url net,
     mkNet (reply net)
           (if n is O then sent net
            else <[url := (default 0 (sent net !! url) + n)%nat]> (sent net))).
Proof.
  induction n as [|n IH]; intros url net; [by destruct net|].
  cbn [doCheck_send]. unfold client_Get. rewrite IH. cbn [reply sent].
  unfold next_replies. cbn [reply sent seq fmap list_fmap].
  rewrite lookup_insert_eq. cbn [default]. f_equal.
  - rewrite Nat.add_0_r. f_equal.
    rewrite <- (fmap_S_seq 0 n), <- !list_fmap_compose.
    apply list_fmap_ext. intros i k _. simpl. do 2 f_equal. lia.
  - f_equal. destruct n as [|n].
    + by rewrite Nat.add_1_r.
    + rewrite insert_insert_eq. unfold id.
      by replace (S (default 0 (sent net !! url)) + S n)%nat
        with (default 0 (sent net !! url) + S (S n))%nat by lia.
Qed.

Lemma doCheck_spec url net :
  doCheck url net
  = (bool_decide (3 ≤ successes 5 url net)%nat,
     mkNet (reply net)
           (<[url := (default 0 (sent net !! url) + 5)%nat]> (sent net))).
Proof.
  unfold doCheck. rewrite doCheck_send_spec. f_equal.
  rewrite attempt_value_sum. unfold successes.
  set (k := length _).
  destruct (Z.leb_spec 3 (0 + Z.of_nat k)); case_bool_decide; done || lia.
Qed.

(** C6: a probe sends exactly five requests to the URL; an attempt passes
    exactly when it receives a response whose status code is in
    [200, 400); the backend is healthy exactly when at least three of the
    five attempts pass; and the health check then adds a healthy backend
    to the live list and removes any other from it. *)
Theorem doCheck_majority url net :
  (doCheck url net).1 = bool_decide (3 ≤ successes 5 url net)%nat
  ∧ length (next_replies 5 url net) = 5
  ∧ sent (doCheck url net).2
    = <[url := (default 0 (sent net !! url) + 5)%nat]> (sent net)
  ∧ (∀ resp, attempt_value resp = 1%Z ↔
             ∃ code, resp = RespStatus code ∧ (200 ≤ code < 400)%Z)
  ∧ (∀ resp, attempt_value resp = 1%Z ↔ attempt_ok resp = true)
  ∧ (∀ backend d,
       (check_backend backend (d, net)).1
       = if bool_decide (3 ≤ successes 5 (backend +:+ Ping d) net)%nat
         then AddAvailableBackend backend d
         else RemoveAvailableBackend backend d).
Proof.
  rewrite doCheck_spec. split; [done|]. split.
  { unfold next_replies. by rewrite length_fmap, length_seq. }
  split; [done|]. split.
  { intros resp. split.
    - destruct resp as [|code]; simpl; [done|].
      destruct (Z.leb_spec 200 code), (Z.ltb_spec code 400); simpl; try done.
      intros _. exists code. split; [done | lia].
    - intros (code & -> & Hc). simpl.
      destruct (Z.leb_spec 200 code), (Z.ltb_spec code 400); simpl; done || lia. }
  split.
  { intros resp. rewrite attempt_value_ok. by destruct (attempt_ok resp). }
  intros backend d. unfold check_backend. rewrite doCheck_spec.
  by destruct (bool_decide _).
Qed.

(** The scripted network of the samples: three of the five answers of s2
    pass, none of s3 does. *)
Lemma doCheck_samples :
  (doCheck "s2/ping" a_net).1 = true ∧ (doCheck "s3/ping" a_net).1 = false.
Proof. split; vm_compute; reflexivity. Qed.

(** ** The monitor loop *)


Lemma checks_run_app tr1 tr2 :
  checks_run (tr1 ++ tr2) = (checks_run tr1 + checks_run tr2)%nat.
Proof.
  induction tr1 as [|e tr1 IH]; [done|]. destruct e; simpl; by rewrite ?IH.
Qed.









(** ** Policies of package upstream *)

Lemma plain_create_sample :
  Upstream.server (plain_create cfg_no_policy)
  = ("/ping", [("http://10.0.0.1:80", false); ("http://10.0.0.2:80", true)])
  ∧ Upstream.Priority (plain_create cfg_no_policy) = 6%Z.
Proof. split; vm_compute; reflexivity. Qed.

Lemma substring_all (s : string) : String.substring 0 (String.length s) s = s.
Proof. induction s as [|b s IH]; simpl; [done | by rewrite IH]. Qed.

Lemma after_append (pre key : string) : Upstream.after pre (pre +:+ key) = key.
Proof.
  unfold Upstream.after. induction pre as [|b pre IH]; simpl.
  - rewrite Nat.sub_0_r. apply substring_all.
  - exact IH.
Qed.

Lemma HasPrefix_append (pre key : string) : HasPrefix (pre +:+ key) pre = true.
Proof.
  unfold HasPrefix. induction pre as [|b pre IH]; simpl.
  - by destruct key.
  - destruct (ascii_dec b b); [exact IH | done].
Qed.

(** The target picker under [header:<key>]: the hash of what
    [GetRequestHeader] returns. *)
Lemma pick_header key c :
  Upstream.pick (Upstream.headerHashPrefix +:+ key) c
  = Upstream.CallGetAvailableUpstream (hash (Upstream.GetRequestHeader c key)).
Proof.
  unfold Upstream.pick. rewrite HasPrefix_append, after_append. reflexivity.
Qed.

(** The target picker under [cookie:<key>]: the hash of the cookie, or the
    zero value of [index] without a cookie. *)
Lemma pick_cookie key c :
  Upstream.pick (Upstream.cookieHashPrefix +:+ key) c
  = Upstream.CallGetAvailableUpstream
      (match Upstream.Cookie c key with
       | Some value => hash value
       | None => 0%Z
       end).
Proof.
  unfold Upstream.pick. rewrite HasPrefix_append, after_append. reflexivity.
Qed.

(** C7, as the code has it: without the named cookie the index is 0, the
    first live backend; without the named header the index is the hash of
    the empty string, 2166136261, whatever the request. *)
Theorem absent_key_index key c :
  (Upstream.Cookie c key = None →
   Upstream.pick (Upstream.cookieHashPrefix +:+ key) c
   = Upstream.CallGetAvailableUpstream 0)
  ∧ (Upstream.Header c !! Upstream.CanonicalMIMEHeaderKey key = None →
     Upstream.pick (Upstream.headerHashPrefix +:+ key) c
     = Upstream.CallGetAvailableUpstream 2166136261).
Proof.
  split.
  - intros H. by rewrite pick_cookie, H.
  - intros H. rewrite pick_header. unfold Upstream.GetRequestHeader.
    by rewrite H.
Qed.

Lemma absent_key_index_witness :
  Upstream.pick "cookie:sid" bare_request = Upstream.CallGetAvailableUpstream 0
  ∧ Upstream.pick "header:X-User" bare_request
    = Upstream.CallGetAvailableUpstream 2166136261.
Proof.
  destruct (absent_key_index "sid" bare_request) as [Hc _].
  destruct (absent_key_index "X-User" bare_request) as [_ Hh].
  split; [apply Hc | apply Hh]; vm_compute; reflexivity.
Defined.

(** C7, as the claim has it, fails for the header: a request without the
    header gets the index 2166136261, not 0, and with two live backends
    that index is reduced to 1, the second of them. *)
Lemma absent_header_not_index_zero :
  Upstream.Header bare_request !! Upstream.CanonicalMIMEHeaderKey "X-User" = None
  ∧ Upstream.pick "header:X-User" bare_request
    = Upstream.CallGetAvailableUpstream 2166136261
  ∧ Upstream.pick "header:X-User" bare_request
    ≠ Upstream.CallGetAvailableUpstream 0
  ∧ (2166136261 mod 2 = 1)%Z.
Proof.
  split; [vm_compute; reflexivity|].
  assert (H : Upstream.pick "header:X-User" bare_request
              = Upstream.CallGetAvailableUpstream 2166136261)
    by (vm_compute; reflexivity).
  split; [exact H|]. split; [|reflexivity].
  rewrite H. discriminate.
Qed.

(** Requests that carry the header or the cookie are hashed by its value. *)
Lemma pick_tagged_request :
  Upstream.pick "header:x-user" tagged_request
  = Upstream.CallGetAvailableUpstream (hash "alice")
  ∧ Upstream.pick "cookie:sid" tagged_request
    = Upstream.CallGetAvailableUpstream (hash "42").
Proof. split; vm_compute; reflexivity. Qed.

(** ** Policy names *)

Section Policy.

Context {HTTP HTTPHeader : Type}.
Variable HTTP_new : string -> HTTP.
Variable HTTP_Add : HTTP -> string -> HTTP.
Variable HTTP_AddBackup : HTTP -> string -> HTTP.
Variable TrimSpace : string -> string.
Variable ConvertToHTTPHeader : list string -> option HTTPHeader.

Local Abbreviation create :=
  (Upstream.createUpstreamFromBackend
     HTTP_new HTTP_Add HTTP_AddBackup TrimSpace ConvertToHTTPHeader).

Lemma createUpstreamFromBackend_Policy backend :
  Upstream.Policy (create backend)
  = if String.eqb (Upstream.bPolicy backend) "" then "roundRobin"
    else Upstream.bPolicy backend.
Proof. reflexivity. Qed.

(** C10: a configuration without a policy gives a group whose policy is
    roundRobin; any other policy string is kept as it is. *)
Theorem default_policy_roundRobin backend :
  (Upstream.bPolicy backend = "" →
   Upstream.Policy (create backend) = "roundRobin")
  ∧ (Upstream.bPolicy backend ≠ "" →
     Upstream.Policy (create backend) = Upstream.bPolicy backend).
Proof.
  rewrite createUpstreamFromBackend_Policy.
  destruct (String.eqb_spec (Upstream.bPolicy backend) ""); split; done.
Qed.

(** C8, as the code has it: nothing rejects a policy name when a group is
    built.  [createUpstreamFromBackend] keeps any non-empty name; the
    target picker sends a name that it does not know, and that has neither
    prefix, to index 0; and [Director.Select] returns the empty string,
    with the director unchanged, for a name that has no select function. *)
Theorem unknown_policy_kept backend :
  (Upstream.bPolicy backend ≠ "" →
   Upstream.Policy (create backend) = Upstream.bPolicy backend)
  ∧ (∀ policy c,
       policy ∉ ["first"; "random"; "roundRobin"; "leastconn"; "ipHash"] →
       HasPrefix policy "header:" = false →
       HasPrefix policy "cookie:" = false →
       Upstream.pick policy c = Upstream.CallGetAvailableUpstream 0)
  ∧ (∀ funcs c rnd d,
       funcs !! Proxy.Policy d = None →
       Select funcs c rnd d = (Done "", d)).
Proof.
  split; [|split].
  - rewrite createUpstreamFromBackend_Policy.
    by destruct (String.eqb_spec (Upstream.bPolicy backend) "").
  - intros policy c Hnot Hh Hc. unfold Upstream.pick.
    unfold Upstream.headerHashPrefix, Upstream.cookieHashPrefix.
    rewrite Hh, Hc. cbn [negb andb].
    repeat match goal with
           | |- context [String.eqb policy ?s] =>
               destruct (String.eqb_spec policy s) as [->|_];
               [exfalso; apply Hnot; unfold Upstream.policyFirst,
                  Upstream.policyRandom, Upstream.policyRoundRobin,
                  Upstream.policyLeastconn, Upstream.policyIPHash;
                set_solver|]
           end.
    reflexivity.
  - intros funcs c rnd d H. unfold Select. by rewrite H.
Qed.

End Policy.

Lemma default_policy_roundRobin_witness :
  Upstream.Policy (plain_create cfg_no_policy) = "roundRobin"
  ∧ Upstream.Policy (plain_create cfg_unknown_policy) = "fastest".
Proof.
  split.
  - apply (default_policy_roundRobin plain_new plain_Add plain_AddBackup
             ascii_TrimSpace plain_Convert cfg_no_policy). reflexivity.
  - apply (default_policy_roundRobin plain_new plain_Add plain_AddBackup
             ascii_TrimSpace plain_Convert cfg_unknown_policy). discriminate.
Defined.

Lemma selectFuncMap_unknown : selectFuncMap !! "fastest" = None.
Proof.
  unfold selectFuncMap, AddSelect.
  rewrite !lookup_insert_ne by done. apply lookup_empty.
Qed.

Lemma unknown_policy_kept_witness :
  Upstream.Policy (plain_create cfg_unknown_policy) = "fastest"
  ∧ Upstream.pick "fastest" bare_request = Upstream.CallGetAvailableUpstream 0
  ∧ Select selectFuncMap a_client 0 unknown_policy_group
    = (Done "", unknown_policy_group).
Proof.
  destruct (unknown_policy_kept plain_new plain_Add plain_AddBackup
              ascii_TrimSpace plain_Convert cfg_unknown_policy)
    as (Hkeep & Hpick & Hsel).
  split; [apply Hkeep; discriminate|]. split.
  - apply Hpick; [|reflexivity|reflexivity].
    intros Hin.
    repeat (apply elem_of_cons in Hin as [Hin|Hin]; [discriminate|]).
    by apply elem_of_nil in Hin.
  - apply Hsel. exact selectFuncMap_unknown.
Defined.

(** C8, as the claim has it, fails: a configuration with the unknown policy
    "fastest" is built into a group that keeps that policy, no select
    function is registered under the name, and at request time [Select]
    returns the empty string although a backend is live. *)
Lemma unknown_policy_not_detected :
  Upstream.Policy (plain_create cfg_unknown_policy) = "fastest"
  ∧ selectFuncMap !! "fastest" = None
  ∧ availableBackends unknown_policy_group = ["s1"]
  ∧ (Select selectFuncMap a_client 0 unknown_policy_group).1 = Done "".
Proof.
  split; [reflexivity|]. split; [exact selectFuncMap_unknown|].
  split; [reflexivity|].
  unfold Select. simpl Proxy.Policy. by rewrite selectFuncMap_unknown.
Qed.

(** ** Selection with live backends *)

Lemma selectFuncMap_cases name fn :
  selectFuncMap !! name = Some fn →
  (name = "first" ∧ fn = selectFirst)
  ∨ (name = "random" ∧ fn = selectRandom)
  ∨ (name = "roundRobin" ∧ fn = selectRoundRobin)
  ∨ (name = "ipHash" ∧ fn = selectIPHash).
Proof.
  unfold selectFuncMap, AddSelect. intros H.
  destruct (decide (name = "ipHash")) as [->|N1].
  { rewrite lookup_insert_eq in H. naive_solver. }
  rewrite lookup_insert_ne in H by done.
  destruct (decide (name = "roundRobin")) as [->|N2].
  { rewrite lookup_insert_eq in H. naive_solver. }
  rewrite lookup_insert_ne in H by done.
  destruct (decide (name = "random")) as [->|N3].
  { rewrite lookup_insert_eq in H. naive_solver. }
  rewrite lookup_insert_ne in H by done.
  destruct (decide (name = "first")) as [->|N4].
  { rewrite lookup_insert_eq in H. naive_solver. }
  rewrite lookup_insert_ne in H by done.
  by rewrite lookup_empty in H.
Qed.

(** The director after a selection. *)
Lemma Select_director c rnd d :
  (Select selectFuncMap c rnd d).2
  = if decide (Proxy.Policy d = "roundRobin")
    then set_roubin d (uint32 (roubin d + 1))
    else d.
Proof.
  unfold Select.
  destruct (selectFuncMap !! Proxy.Policy d) as [fn|] eqn:E.
  - apply selectFuncMap_cases in E
      as [[HP ->]|[[HP ->]|[[HP ->]|[HP ->]]]];
      rewrite HP; simpl;
      repeat case_match; done.
  - simpl. case_decide as HP; [|done].
    rewrite HP, selectFuncMap_roundRobin in E. done.
Qed.

(** X1: with at least one live backend (and fewer than 2^32 of them), a
    selection under any registered select function returns without a panic,
    and what it returns is one of the live backends. *)
Theorem Select_returns_live funcs fn c rnd d :
  funcs !! Proxy.Policy d = Some fn →
  (0 < length (availableBackends d))%nat →
  (Z.of_nat (length (availableBackends d)) < 2 ^ 32)%Z →
  ∃ backend, (Select funcs c rnd d).1 = Done backend
             ∧ backend ∈ availableBackends d.
Proof. apply Select_live. Qed.

Lemma Select_returns_live_witness :
  ∃ backend, (Select selectFuncMap a_client 0 three_live).1 = Done backend
             ∧ backend ∈ availableBackends three_live.
Proof.
  apply (Select_returns_live selectFuncMap selectRoundRobin).
  - exact selectFuncMap_roundRobin.
  - simpl. lia.
  - simpl. lia.
Defined.

(** X2: a selection under the select functions of the package changes
    nothing of the director but the round-robin counter; under any policy
    other than roundRobin it changes nothing at all; under roundRobin the
    counter goes up by one modulo 2^32, and so stays a 32-bit value. *)
Theorem Select_changes_only_roubin c rnd d :
  set_roubin (Select selectFuncMap c rnd d).2 (roubin d) = d
  ∧ (Proxy.Policy d ≠ "roundRobin" → (Select selectFuncMap c rnd d).2 = d)
  ∧ (Proxy.Policy d = "roundRobin" →
     roubin (Select selectFuncMap c rnd d).2 = ((roubin d + 1) mod 2 ^ 32)%Z)
  ∧ (is_uint32 (roubin d) → is_uint32 (roubin (Select selectFuncMap c rnd d).2)).
Proof.
  rewrite Select_director. case_decide as HP.
  - split; [by destruct d|]. split; [done|]. split; [done|].
    intros _. unfold is_uint32, uint32. simpl.
    apply Z.mod_pos_bound. lia.
  - split; [by destruct d|]. split; [done|]. split; done.
Qed.

Lemma Select_changes_only_roubin_witness :
  (Select selectFuncMap a_client 0 catch_all).2 = catch_all
  ∧ roubin (Select selectFuncMap a_client 0
              (set_roubin three_live (2 ^ 32 - 1))).2 = 0%Z.
Proof.
  split.
  - apply (Select_changes_only_roubin a_client 0 catch_all). discriminate.
  - destruct (Select_changes_only_roubin a_client 0
                (set_roubin three_live (2 ^ 32 - 1))) as (_ & _ & H & _).
    rewrite H; reflexivity.
Defined.

Lemma Select_run_live draws c : ∀ d fn,
  selectFuncMap !! Proxy.Policy d = Some fn →
  (0 < length (availableBackends d))%nat →
  (Z.of_nat (length (availableBackends d)) < 2 ^ 32)%Z →
  Forall (fun r => ∃ backend, r = Done backend ∧ backend ∈ availableBackends d)
         (Select_run draws c d).1
  ∧ length (Select_run draws c d).1 = length draws.
Proof.
  induction draws as [|rnd draws IH]; intros d fn Hfn Hn Hn32; [by split|].
  cbn [Select_run].
  destruct (Select_live selectFuncMap fn c rnd d Hfn Hn Hn32) as (b & Hb & Hin).
  pose proof (Select_director c rnd d) as Hd.
  destruct (Select selectFuncMap c rnd d) as [r d1]. simpl in Hb, Hd. subst r.
  assert (Hlive : availableBackends d1 = availableBackends d)
    by (rewrite Hd; by case_decide).
  assert (Hpol : Proxy.Policy d1 = Proxy.Policy d)
    by (rewrite Hd; by case_decide).
  destruct (IH d1 fn) as [IH1 IH2]; [by rewrite Hpol | by rewrite Hlive..|].
  destruct (Select_run draws c d1) as [rs d2]. simpl in *. split.
  - constructor; [by exists b|]. by rewrite <- Hlive.
  - by rewrite IH2.
Qed.

(** X3: any number of consecutive selections under a registered policy,
    whatever the random draws are and round robin across the wrap of its
    counter included, return live backends only and never panic, as long
    as the live list is not empty. *)
Theorem Select_run_returns_live draws c d fn :
  selectFuncMap !! Proxy.Policy d = Some fn →
  (0 < length (availableBackends d))%nat →
  (Z.of_nat (length (availableBackends d)) < 2 ^ 32)%Z →
  Forall (fun r => ∃ backend, r = Done backend ∧ backend ∈ availableBackends d)
         (Select_run draws c d).1
  ∧ length (Select_run draws c d).1 = length draws.
Proof. apply Select_run_live. Qed.

Lemma selectFuncMap_random : selectFuncMap !! "random" = Some selectRandom.
Proof.
  unfold selectFuncMap, AddSelect.
  rewrite !lookup_insert_ne by done. by rewrite lookup_insert_eq.
Qed.

Lemma Select_run_returns_live_witness :
  Forall (fun r => ∃ backend, r = Done backend ∧ backend ∈ ["s1"; "s2"; "s3"])
         (Select_run [7; 4294967295; 0; 12; 5]%Z a_client three_random).1
  ∧ (Select_run [7; 4294967295; 0; 12; 5]%Z a_client three_random).1
    = [Done "s2"; Done "s1"; Done "s1"; Done "s1"; Done "s3"].
Proof.
  split; [|vm_compute; reflexivity].
  apply (Select_run_returns_live [7; 4294967295; 0; 12; 5]%Z a_client
           three_random selectRandom).
  - exact selectFuncMap_random.
  - simpl. lia.
  - simpl. lia.
Defined.

(** ** Adding and removing list entries *)

Section AddRemove.

Implicit Types (l : list string) (t x : string).

Lemma elem_of_add_str l t x : x ∈ add_str t l ↔ x = t ∨ x ∈ l.
Proof.
  unfold add_str. destruct (IncludesString l t) eqn:E.
  - apply IncludesString_spec in E. split; [by right | by intros [->|]].
  - rewrite elem_of_app, list_elem_of_singleton. tauto.
Qed.

Lemma add_str_NoDup l t : NoDup l → NoDup (add_str t l).
Proof.
  unfold add_str. intros H. destruct (IncludesString l t) eqn:E; [done|].
  apply IncludesString_false in E. apply NoDup_app. split; [done|].
  split; [|apply NoDup_singleton].
  intros x Hx Hx'. apply list_elem_of_singleton in Hx'. by subst.
Qed.

Lemma add_str_idem l t : add_str t (add_str t l) = add_str t l.
Proof.
  unfold add_str at 1.
  assert (H : IncludesString (add_str t l) t = true)
    by (apply IncludesString_spec, elem_of_add_str; by left).
  by rewrite H.
Qed.

Lemma remove_first_add_str l t : t ∉ l → remove_first t (add_str t l) = l.
Proof.
  intros H. unfold add_str.
  apply IncludesString_false in H as E. rewrite E.
  apply IncludesString_false in E.
  rewrite remove_first_app_r by done. simpl.
  rewrite String.eqb_refl. apply app_nil_r.
Qed.

Lemma remove_first_length l t :
  t ∈ l → S (length (remove_first t l)) = length l.
Proof.
  induction l as [|y l IH]; simpl; [intros H; by apply elem_of_nil in H|].
  intros H. destruct (String.eqb_spec y t) as [->|Hne]; [done|].
  apply elem_of_cons in H as [->|H]; [done|]. simpl. by rewrite IH.
Qed.

Lemma elem_of_remove_first l t x :
  NoDup l → x ∈ remove_first t l ↔ x ≠ t ∧ x ∈ l.
Proof.
  intros Hnd. split.
  - intros Hx. split; [|by apply (remove_first_subseteq _ t)].
    intros ->. by apply (remove_first_not_in t l).
  - intros [Hne Hx]. by apply remove_first_other.
Qed.

Lemma remove_first_split l t :
  t ∈ l →
  ∃ pre post, l = pre ++ (t :: post) ∧ (t ∉ pre) ∧ remove_first t l = pre ++ post.
Proof.
  induction l as [|y l IH]; [intros H; by apply elem_of_nil in H|].
  intros H. simpl. destruct (String.eqb_spec y t) as [->|Hne].
  - exists [], l. split; [done|]. split; [apply not_elem_of_nil | done].
  - apply elem_of_cons in H as [->|H]; [done|].
    destruct (IH H) as (pre & post & -> & Hpre & ->).
    exists (y :: pre), post. split; [done|]. split; [|done].
    apply not_elem_of_cons. split; [congruence | done].
Qed.

End AddRemove.

Lemma AddBackend_eq b d :
  AddBackend b d = set_Backends d (add_str b (Backends d)).
Proof.
  unfold AddBackend, add_str.
  destruct (IncludesString (Backends d) b); [by destruct d | done].
Qed.

Lemma AddAvailableBackend_eq b d :
  AddAvailableBackend b d
  = set_availableBackends d (add_str b (availableBackends d)).
Proof.
  unfold AddAvailableBackend, add_str.
  destruct (IncludesString (availableBackends d) b); [by destruct d | done].
Qed.

(** X4: [AddBackend] and [AddAvailableBackend] keep what the list has, put
    the backend in it, keep a list without duplicates free of duplicates,
    and do nothing when applied a second time. *)
Theorem Add_keeps_unique b d :
  (∀ x, x ∈ Backends (AddBackend b d) ↔ x = b ∨ x ∈ Backends d)
  ∧ (NoDup (Backends d) → NoDup (Backends (AddBackend b d)))
  ∧ AddBackend b (AddBackend b d) = AddBackend b d
  ∧ (∀ x, x ∈ availableBackends (AddAvailableBackend b d)
          ↔ x = b ∨ x ∈ availableBackends d)
  ∧ (NoDup (availableBackends d) →
     NoDup (availableBackends (AddAvailableBackend b d)))
  ∧ AddAvailableBackend b (AddAvailableBackend b d) = AddAvailableBackend b d.
Proof.
  rewrite !AddBackend_eq, !AddAvailableBackend_eq. simpl.
  rewrite !add_str_idem.
  split; [intros x; apply elem_of_add_str|].
  split; [apply add_str_NoDup|]. split; [done|].
  split; [intros x; apply elem_of_add_str|].
  split; [apply add_str_NoDup | done].
Qed.

Lemma Add_keeps_unique_witness :
  NoDup (Backends (AddBackend "s2" three_live))
  ∧ NoDup (availableBackends (AddAvailableBackend "s4" three_live)).
Proof.
  assert (H : NoDup ["s1"; "s2"; "s3"]).
  { apply (bool_decide_unpack _). vm_compute. exact I. }
  destruct (Add_keeps_unique "s2" three_live) as (_ & H1 & _).
  destruct (Add_keeps_unique "s4" three_live) as (_ & _ & _ & _ & H2 & _).
  split; [apply H1 | apply H2]; exact H.
Defined.

(** X5: [RemoveBackend] and [RemoveAvailableBackend] take out one
    occurrence of the backend, the first: the list is cut where the
    backend stands with no occurrence before it, what is before and what
    is after are kept in their order, and no other field changes.  They
    do nothing when the backend is absent; on a list without duplicates
    the backend is gone afterwards and every other entry stays; and
    removing a backend that was just added to a list that did not have it
    gives the director back. *)
Theorem Remove_first_occurrence b d :
  (b ∈ Backends d →
   S (length (Backends (RemoveBackend b d))) = length (Backends d))
  ∧ (b ∉ Backends d → RemoveBackend b d = d)
  ∧ (NoDup (Backends d) →
     ∀ x, x ∈ Backends (RemoveBackend b d) ↔ x ≠ b ∧ x ∈ Backends d)
  ∧ (b ∉ Backends d → RemoveBackend b (AddBackend b d) = d)
  ∧ (b ∈ availableBackends d →
     S (length (availableBackends (RemoveAvailableBackend b d)))
     = length (availableBackends d))
  ∧ (b ∉ availableBackends d → RemoveAvailableBackend b d = d)
  ∧ (NoDup (availableBackends d) →
     ∀ x, x ∈ availableBackends (RemoveAvailableBackend b d)
          ↔ x ≠ b ∧ x ∈ availableBackends d)
  ∧ (b ∉ availableBackends d →
     RemoveAvailableBackend b (AddAvailableBackend b d) = d)
  ∧ (b ∈ Backends d →
     ∃ pre post, Backends d = pre ++ (b :: post) ∧ (b ∉ pre)
                 ∧ RemoveBackend b d = set_Backends d (pre ++ post))
  ∧ (b ∈ availableBackends d →
     ∃ pre post, availableBackends d = pre ++ (b :: post) ∧ (b ∉ pre)
                 ∧ RemoveAvailableBackend b d
                   = set_availableBackends d (pre ++ post)).
Proof.
  rewrite !RemoveBackend_eq, !RemoveAvailableBackend_eq,
    AddBackend_eq, AddAvailableBackend_eq. simpl.
  split; [apply remove_first_length|].
  split; [intros H; rewrite remove_first_absent by done; by destruct d|].
  split; [intros H x; by apply elem_of_remove_first|].
  split; [intros H; rewrite remove_first_add_str by done; by destruct d|].
  split; [apply remove_first_length|].
  split; [intros H; rewrite remove_first_absent by done; by destruct d|].
  split; [intros H x; by apply elem_of_remove_first|].
  split; [intros H; rewrite remove_first_add_str by done; by destruct d|].
  split.
  - intros H. destruct (remove_first_split _ _ H) as (pre & post & E & Hpre & ->).
    by exists pre, post.
  - intros H. destruct (remove_first_split _ _ H) as (pre & post & E & Hpre & ->).
    by exists pre, post.
Qed.

Lemma Remove_first_occurrence_witness :
  length (Backends (RemoveBackend "s2" three_live)) = 2%nat
  ∧ RemoveBackend "s4" (AddBackend "s4" three_live) = three_live.
Proof.
  destruct (Remove_first_occurrence "s2" three_live) as (H1 & _).
  destruct (Remove_first_occurrence "s4" three_live) as (_ & _ & _ & H4 & _).
  split.
  - apply eq_add_S. rewrite H1; [reflexivity|]. simpl. right. left.
  - apply H4. simpl. intros Hin.
    repeat (apply elem_of_cons in Hin as [Hin|Hin]; [discriminate|]).
    by apply elem_of_nil in Hin.
Defined.

(** ** A cycle of health checks *)

Lemma string_length_app (a p : string) :
  String.length (a +:+ p) = (String.length a + String.length p)%nat.
Proof. induction a as [|c a IH]; simpl; [done | by rewrite IH]. Qed.

(** Two backends with the same probe URL are the same backend. *)
Lemma string_app_inj_r (p a b : string) : a +:+ p = b +:+ p → a = b.
Proof.
  revert b. induction a as [|c a IH]; intros [|c' b] H.
  - done.
  - apply (f_equal String.length) in H.
    rewrite !string_length_app in H. simpl in H. lia.
  - apply (f_equal String.length) in H.
    rewrite !string_length_app in H. simpl in H. lia.
  - simpl in H. injection H as -> H. f_equal. by apply IH.
Qed.

Lemma successes_other n url url' net k :
  url' ≠ url →
  successes n url' (mkNet (reply net) (<[url := k]> (sent net)))
  = successes n url' net.
Proof.
  intros Hne. unfold successes, next_replies. simpl.
  by rewrite lookup_insert_ne.
Qed.

(** One goroutine of the cycle, in terms of the lists. *)
Lemma check_backend_spec b d net :
  check_backend b (d, net)
  = (set_availableBackends d
       (if bool_decide (3 ≤ successes 5 (b +:+ Ping d) net)%nat
        then add_str b (availableBackends d)
        else remove_first b (availableBackends d)),
     mkNet (reply net)
           (<[b +:+ Ping d :=
                (default 0 (sent net !! (b +:+ Ping d)) + 5)%nat]> (sent net))).
Proof.
  unfold check_backend. rewrite doCheck_spec.
  destruct (bool_decide _).
  - by rewrite AddAvailableBackend_eq.
  - by rewrite RemoveAvailableBackend_eq.
Qed.

Lemma same_but_live_trans d d1 d2 :
  same_but_live d d1 → same_but_live d1 d2 → same_but_live d d2.
Proof.
  unfold same_but_live. intros H1 H2. rewrite <- H1 at 2. rewrite <- H2.
  by destruct d2.
Qed.

Lemma same_but_live_Ping d d' : same_but_live d d' → Ping d' = Ping d.
Proof. unfold same_but_live. intros <-. by destruct d'. Qed.

Lemma same_but_live_Backends d d' :
  same_but_live d d' → Backends d' = Backends d.
Proof. unfold same_but_live. intros <-. by destruct d'. Qed.

(** What a cycle over distinct backends leaves behind. *)
Lemma HealthCheck_spec order : ∀ d net,
  NoDup order → NoDup (availableBackends d) →
  same_but_live d (HealthCheck order (d, net)).1
  ∧ NoDup (availableBackends (HealthCheck order (d, net)).1)
  ∧ (∀ b, b ∈ order →
       (b ∈ availableBackends (HealthCheck order (d, net)).1
        ↔ (3 ≤ successes 5 (b +:+ Ping d) net)%nat))
  ∧ (∀ b, b ∉ order →
       (b ∈ availableBackends (HealthCheck order (d, net)).1
        ↔ b ∈ availableBackends d))
  ∧ reply (HealthCheck order (d, net)).2 = reply net
  ∧ (∀ b, b ∈ order →
       sent (HealthCheck order (d, net)).2 !! (b +:+ Ping d)
       = Some (default 0 (sent net !! (b +:+ Ping d)) + 5)%nat)
  ∧ (∀ url, (∀ b, b ∈ order → url ≠ b +:+ Ping d) →
       sent (HealthCheck order (d, net)).2 !! url = sent net !! url).
Proof.
  unfold HealthCheck.
  induction order as [|b order IH]; intros d net Hnd Hlive.
  - simpl. split; [by destruct d|]. split; [done|].
    split; [intros b Hb; by apply elem_of_nil in Hb|].
    split; [done|]. split; [done|].
    split; [intros b Hb; by apply elem_of_nil in Hb | done].
  - apply NoDup_cons in Hnd as [Hb Hnd]. cbn [foldl].
    rewrite check_backend_spec.
    set (h := bool_decide (3 ≤ successes 5 (b +:+ Ping d) net)%nat).
    set (live1 := if h then add_str b (availableBackends d)
                  else remove_first b (availableBackends d)).
    set (d1 := set_availableBackends d live1).
    set (net1 := mkNet (reply net) _).
    assert (Hlive1 : NoDup live1).
    { subst live1. destruct h; [by apply add_str_NoDup|by apply remove_first_NoDup]. }
    assert (Hsame1 : same_but_live d d1) by (by destruct d).
    assert (Hb1 : b ∈ live1 ↔ (3 ≤ successes 5 (b +:+ Ping d) net)%nat).
    { subst live1 h. case_bool_decide as Hh.
      - split; [done|]. intros _. apply elem_of_add_str. by left.
      - split; [|done]. intros Hin. exfalso.
        by apply (remove_first_not_in b (availableBackends d)). }
    assert (Hother : ∀ x, x ≠ b → x ∈ live1 ↔ x ∈ availableBackends d).
    { intros x Hx. subst live1. destruct h.
      - rewrite elem_of_add_str. tauto.
      - rewrite elem_of_remove_first by done. tauto. }
    destruct (IH d1 net1 Hnd Hlive1) as (I1 & I2 & I3 & I4 & I5 & I6 & I7).
    change (Ping d1) with (Ping d) in *.
    change (availableBackends d1) with live1 in *.
    split; [by apply (same_but_live_trans d d1)|]. split; [done|].
    split; [|split; [|split; [done|split]]].
    + intros x Hx. apply elem_of_cons in Hx as [->|Hx].
      * rewrite I4 by done. done.
      * rewrite I3 by done. subst net1.
        rewrite successes_other; [done|].
        intros E. apply string_app_inj_r in E. by subst.
    + intros x Hx. apply not_elem_of_cons in Hx as [Hxb Hx].
      rewrite I4 by done. by apply Hother.
    + intros x Hx. apply elem_of_cons in Hx as [->|Hx].
      * rewrite I7.
        -- subst net1. simpl. by rewrite lookup_insert_eq.
        -- intros y Hy E. apply string_app_inj_r in E. by subst.
      * rewrite I6 by done. subst net1. simpl.
        rewrite lookup_insert_ne; [done|].
        intros E. apply string_app_inj_r in E. by subst.
    + intros url Hurl. rewrite I7.
      * subst net1. simpl. rewrite lookup_insert_ne; [done|].
        intros E. apply (Hurl b); [left | done].
      * intros y Hy. apply Hurl. by right.
Qed.

Lemma HealthCheck_marks_healthy_aux d net order :
  NoDup (Backends d) → NoDup (availableBackends d) →
  order ≡ₚ Backends d →
  (∀ b, b ∈ Backends d →
     (b ∈ availableBackends (HealthCheck order (d, net)).1
      ↔ (3 ≤ successes 5 (b +:+ Ping d) net)%nat))
  ∧ (∀ b, b ∉ Backends d →
       (b ∈ availableBackends (HealthCheck order (d, net)).1
        ↔ b ∈ availableBackends d))
  ∧ NoDup (availableBackends (HealthCheck order (d, net)).1)
  ∧ same_but_live d (HealthCheck order (d, net)).1.
Proof.
  intros HB HL Hp.
  assert (Hnd : NoDup order) by (by rewrite Hp).
  destruct (HealthCheck_spec order d net Hnd HL) as (I1 & I2 & I3 & I4 & _).
  split; [intros b Hb; apply I3; by rewrite Hp|].
  split; [intros b Hb; apply I4; by rewrite Hp|]. done.
Qed.

(** X6: a cycle of health checks over a group whose backends and live
    backends have no duplicates, in any order of its goroutines, leaves
    every configured backend live exactly when at least three of the five
    answers to its own probe pass; it keeps any live entry that is not
    configured, keeps the live list free of duplicates, and changes no
    other field of the director. *)
Theorem HealthCheck_marks_healthy d net order :
  NoDup (Backends d) → NoDup (availableBackends d) →
  order ≡ₚ Backends d →
  (∀ b, b ∈ Backends d →
     (b ∈ availableBackends (HealthCheck order (d, net)).1
      ↔ (3 ≤ successes 5 (b +:+ Ping d) net)%nat))
  ∧ (∀ b, b ∉ Backends d →
       (b ∈ availableBackends (HealthCheck order (d, net)).1
        ↔ b ∈ availableBackends d))
  ∧ NoDup (availableBackends (HealthCheck order (d, net)).1)
  ∧ same_but_live d (HealthCheck order (d, net)).1.
Proof. apply HealthCheck_marks_healthy_aux. Qed.

Lemma HealthCheck_marks_healthy_witness :
  "s1" ∈ availableBackends (HealthCheck ["s3"; "s1"; "s2"] (three_live, a_net)).1
  ∧ "s3" ∉ availableBackends (HealthCheck ["s3"; "s1"; "s2"] (three_live, a_net)).1.
Proof.
  assert (H : NoDup ["s1"; "s2"; "s3"])
    by (apply (bool_decide_unpack _); vm_compute; exact I).
  assert (Hp : ["s3"; "s1"; "s2"] ≡ₚ Backends three_live).
  { simpl. apply (Permutation_trans (l' := ["s1"; "s3"; "s2"])).
    - apply Permutation_swap.
    - apply Permutation_skip, Permutation_swap. }
  destruct (HealthCheck_marks_healthy three_live a_net ["s3"; "s1"; "s2"] H H Hp)
    as (Hiff & _).
  split.
  - apply Hiff; [simpl; left|]. vm_compute. lia.
  - intros Hin. apply Hiff in Hin; [|simpl; right; right; left].
    vm_compute in Hin. lia.
Defined.

(** The calls of [client.Get] that a cycle over distinct backends makes. *)
Lemma HealthCheck_calls order : ∀ d net,
  NoDup order →
  Ping (HealthCheck order (d, net)).1 = Ping d
  ∧ reply (HealthCheck order (d, net)).2 = reply net
  ∧ (∀ b, b ∈ order →
       sent (HealthCheck order (d, net)).2 !! (b +:+ Ping d)
       = Some (default 0 (sent net !! (b +:+ Ping d)) + 5)%nat)
  ∧ (∀ url, (∀ b, b ∈ order → url ≠ b +:+ Ping d) →
       sent (HealthCheck order (d, net)).2 !! url = sent net !! url).
Proof.
  unfold HealthCheck.
  induction order as [|b order IH]; intros d net Hnd.
  - simpl. split; [done|]. split; [done|].
    split; [intros b Hb; by apply elem_of_nil in Hb | done].
  - apply NoDup_cons in Hnd as [Hb Hnd]. cbn [foldl].
    rewrite check_backend_spec.
    set (d1 := set_availableBackends d _).
    set (net1 := mkNet (reply net) _).
    destruct (IH d1 net1 Hnd) as (I1 & I2 & I3 & I4).
    change (Ping d1) with (Ping d) in *.
    split; [done|]. split; [done|]. split.
    + intros x Hx. apply elem_of_cons in Hx as [->|Hx].
      * rewrite I4.
        -- subst net1. simpl. by rewrite lookup_insert_eq.
        -- intros y Hy E. apply string_app_inj_r in E. by subst.
      * rewrite I3 by done. subst net1. simpl.
        rewrite lookup_insert_ne; [done|].
        intros E. apply string_app_inj_r in E. by subst.
    + intros url Hurl. rewrite I4.
      * subst net1. simpl. rewrite lookup_insert_ne; [done|].
        intros E. apply (Hurl b); [left | done].
      * intros y Hy. apply Hurl. by right.
Qed.

(** X7: in a cycle over a list of backends without duplicates,
    [client.Get] is called exactly five times with the probe URL of every
    configured backend, and it is not called with any other URL. *)
Theorem HealthCheck_requests d net order :
  NoDup (Backends d) →
  order ≡ₚ Backends d →
  (∀ b, b ∈ Backends d →
     sent (HealthCheck order (d, net)).2 !! (b +:+ Ping d)
     = Some (default 0 (sent net !! (b +:+ Ping d)) + 5)%nat)
  ∧ (∀ url, (∀ b, b ∈ Backends d → url ≠ b +:+ Ping d) →
       sent (HealthCheck order (d, net)).2 !! url = sent net !! url)
  ∧ reply (HealthCheck order (d, net)).2 = reply net.
Proof.
  intros HB Hp.
  assert (Hnd : NoDup order) by (by rewrite Hp).
  destruct (HealthCheck_calls order d net Hnd) as (_ & I5 & I6 & I7).
  split; [intros b Hb; apply I6; by rewrite Hp|].
  split; [|done]. intros url Hurl. apply I7.
  intros b Hb. apply Hurl. by rewrite <- Hp.
Qed.

Lemma HealthCheck_requests_witness :
  sent (HealthCheck ["s3"; "s1"; "s2"] (three_live, a_net)).2 !! "s2/ping"
  = Some 5%nat.
Proof.
  assert (H : NoDup ["s1"; "s2"; "s3"])
    by (apply (bool_decide_unpack _); vm_compute; exact I).
  assert (Hp : ["s3"; "s1"; "s2"] ≡ₚ Backends three_live).
  { simpl. apply (Permutation_trans (l' := ["s1"; "s3"; "s2"])).
    - apply Permutation_swap.
    - apply Permutation_skip, Permutation_swap. }
  destruct (HealthCheck_requests three_live a_net ["s3"; "s1"; "s2"] H Hp)
    as (Hsent & _).
  apply (Hsent "s2"). simpl. right. left.
Defined.

(** ** What the monitor keeps *)

Lemma check_backend_keeps b d net :
  same_but_live d (check_backend b (d, net)).1
  ∧ (NoDup (availableBackends d) →
     NoDup (availableBackends (check_backend b (d, net)).1)).
Proof.
  rewrite check_backend_spec. simpl. split; [by destruct d|].
  intros H. destruct (bool_decide _);
    [by apply add_str_NoDup | by apply remove_first_NoDup].
Qed.

Lemma HealthCheck_keeps order : ∀ d net,
  same_but_live d (HealthCheck order (d, net)).1
  ∧ (NoDup (availableBackends d) →
     NoDup (availableBackends (HealthCheck order (d, net)).1)).
Proof.
  unfold HealthCheck. induction order as [|b order IH]; intros d net.
  - simpl. split; [by destruct d | done].
  - cbn [foldl]. destruct (check_backend_keeps b d net) as [H1 H2].
    destruct (check_backend b (d, net)) as [d1 net1]. simpl in H1, H2.
    destruct (IH d1 net1) as [IH1 IH2]. split.
    + by apply (same_but_live_trans d d1).
    + intros H. by apply IH2, H2.
Qed.

Local Abbreviation keeps d ticks r :=
  (same_but_live d (final r).1
   ∧ (NoDup (availableBackends d) → NoDup (availableBackends (final r).1))
   ∧ (orders_within (Backends d) ticks → live_subset d →
      live_subset (final r).1)).

Lemma serve_keeps restart :
  (∀ ticks d net, keeps d ticks (restart ticks (d, net))) →
  ∀ ticks d net, keeps d ticks (serve restart ticks (d, net)).
Proof.
  intros Hrestart. induction ticks as [|[order|err|finished err] ticks IH];
    intros d net.
  - simpl. split; [by destruct d | done].
  - cbn [serve emit final].
    destruct (HealthCheck_keeps order d net) as [H1 H2].
    pose proof (live_subset_HealthCheck order (d, net)) as H3.
    destruct (HealthCheck order (d, net)) as [d1 net1]. simpl in H1, H2, H3.
    destruct (IH d1 net1) as (IH1 & IH2 & IH3).
    split; [by apply (same_but_live_trans d d1)|].
    split; [intros H; by apply IH2, H2|].
    intros Hw Hs. apply Forall_cons in Hw as [Ho Hw].
    destruct (H3 Ho Hs) as [H4 H5]. apply IH3; [by rewrite H5 | done].
  - cbn [serve emit final]. destruct (Hrestart ticks d net) as (R1 & R2 & R3).
    split; [done|]. split; [done|].
    intros Hw Hs. apply Forall_cons in Hw as [_ Hw]. by apply R3.
  - cbn [serve final].
    destruct (HealthCheck_keeps finished d net) as [H1 H2].
    pose proof (live_subset_HealthCheck finished (d, net)) as H3.
    split; [done|]. split; [done|].
    intros Hw Hs. apply Forall_cons in Hw as [Ho Hw]. by apply H3.
Qed.

Lemma StartHealthCheck_keeps depth interval :
  ∀ ticks d net, keeps d ticks (StartHealthCheck depth interval ticks (d, net)).
Proof.
  induction depth as [|depth IH]; intros ticks d net.
  - simpl. split; [by destruct d | done].
  - cbn [StartHealthCheck]. destruct (interval <=? 0)%Z; cbn [emit final].
    + apply IH.
    + by apply serve_keeps.
Qed.

(** X8: however many ticks the monitor serves and however it ends, with
    or without panics in the loop or in a goroutine, it changes nothing of
    the director but the live list (backends, rules, priority, policy and
    counter stay); it keeps a live list free of duplicates so; and when
    every cycle probes configured backends only, it keeps the live
    backends among the configured ones. *)
Theorem StartHealthCheck_keeps_config depth interval ticks d net :
  same_but_live d (final (StartHealthCheck depth interval ticks (d, net))).1
  ∧ (NoDup (availableBackends d) →
     NoDup (availableBackends
              (final (StartHealthCheck depth interval ticks (d, net))).1))
  ∧ (orders_within (Backends d) ticks → live_subset d →
     live_subset (final (StartHealthCheck depth interval ticks (d, net))).1).
Proof. apply StartHealthCheck_keeps. Qed.

Lemma StartHealthCheck_keeps_config_witness :
  live_subset
    (final (StartHealthCheck 3 5000000000
              [CycleRuns ["s2"; "s1"]; CycleFaults "nil map"; CycleRuns ["s3"]]
              (three_live, a_net))).1.
Proof.
  destruct (StartHealthCheck_keeps_config 3 5000000000
              [CycleRuns ["s2"; "s1"]; CycleFaults "nil map"; CycleRuns ["s3"]]
              three_live a_net) as (_ & _ & H).
  apply H.
  - assert (Hsub : ∀ order : list string,
              bool_decide (order ⊆ ["s1"; "s2"; "s3"]) = true →
              order ⊆ Backends three_live)
      by (intros order Ho; by apply bool_decide_eq_true in Ho).
    apply Forall_cons. split; [by apply Hsub|].
    apply Forall_cons. split; [exact I|].
    apply Forall_cons. split; [by apply Hsub|]. constructor.
  - intros x Hx. exact Hx.
Defined.

(** ** Probes one after the other *)

Lemma next_replies_after n m url net :
  next_replies n url
    (mkNet (reply net)
           (<[url := (default 0 (sent net !! url) + m)%nat]> (sent net)))
  = drop m (next_replies (m + n) url net).
Proof.
  unfold next_replies. simpl. rewrite lookup_insert_eq. simpl.
  rewrite <- fmap_drop, drop_seq.
  replace (m + n - m)%nat with n by lia.
  replace (0 + m)%nat with (m + 0)%nat by lia.
  rewrite <- (fmap_add_seq m 0 n), <- list_fmap_compose.
  apply list_fmap_ext. intros i k _. simpl. f_equal. lia.
Qed.

(** X9: a second probe of the same URL is judged on the five answers that
    follow the five of the first probe, and a probe of one URL does not
    change the verdict of a probe of another URL. *)
Theorem doCheck_in_sequence url url' net :
  (doCheck url (doCheck url net).2).1
  = bool_decide (3 ≤ length (filter (fun resp => attempt_ok resp)
                               (drop 5 (next_replies 10 url net))))%nat
  ∧ (url' ≠ url → (doCheck url' (doCheck url net).2).1 = (doCheck url' net).1).
Proof.
  rewrite !doCheck_spec. simpl. split.
  - unfold successes. by rewrite (next_replies_after 5 5).
  - intros Hne. by rewrite successes_other.
Qed.

Lemma doCheck_in_sequence_witness :
  (doCheck "s2/ping" (doCheck "s1/ping" a_net).2).1 = (doCheck "s2/ping" a_net).1.
Proof.
  apply (doCheck_in_sequence "s1/ping" "s2/ping" a_net). discriminate.
Defined.

(** ** Matching without hosts, and with a pattern that does not compile *)

Section MatchEdges.

Context {Regexp : Type}.
Variable regexp_Compile : string -> option Regexp.
Variable regexp_Match : Regexp -> string -> bool.

Local Abbreviation search := (regexp_search regexp_Compile regexp_Match).

(** X10: a group without host patterns never compiles a pattern, so its
    match never panics; the result does not depend on the host, and it is
    true exactly when the group has no prefix either or the path starts
    with one of its prefixes. *)
Theorem Match_without_hosts d uri :
  Proxy.Hosts d = [] →
  ∃ b, (∀ host', Proxy.Match regexp_Compile regexp_Match d host' uri = Done b)
       ∧ (b = true ↔
          Proxy.Prefixs d = []
          ∨ ∃ p, p ∈ Proxy.Prefixs d ∧ HasPrefix uri p = true).
Proof.
  intros HH.
  exists (if Proxy.Prefixs d is [] then true
          else existsb (HasPrefix uri) (Proxy.Prefixs d)).
  split.
  - intros host'. rewrite Match_valid by (rewrite HH; constructor).
    by rewrite HH.
  - destruct (Proxy.Prefixs d) as [|q prefixs]; [by split; [left|]|].
    rewrite existsb_exists. split.
    + intros (p & Hin & Hp). right. exists p. split; [|done].
      by apply list_elem_of_In.
    + intros [|(p & Hin & Hp)]; [done|]. exists p.
      split; [by apply list_elem_of_In | done].
Qed.

Lemma match_hosts_app good rest host :
  Forall (fun p => is_Some (regexp_Compile p)) good →
  match_hosts regexp_Compile regexp_Match (good ++ rest) host false
  = if existsb (fun p => search p host) good then Done true
    else match_hosts regexp_Compile regexp_Match rest host false.
Proof.
  induction 1 as [|p good [reg Hp] _ IH]; [done|].
  cbn [app match_hosts existsb]. unfold regexp_MustCompile, regexp_search at 1.
  rewrite Hp. cbn [bind]. destruct (regexp_Match reg host); cbn [orb].
  - by destruct (good ++ rest).
  - exact IH.
Qed.

(** X11: a host pattern that does not compile makes the match panic with
    that pattern exactly when no pattern before it is found in the host;
    when one is, the loop has stopped before the bad pattern and the match
    returns as if the list ended there. *)
Theorem Match_pattern_not_compiled d host uri good bad rest :
  Proxy.Hosts d = good ++ bad :: rest →
  Forall (fun p => is_Some (regexp_Compile p)) good →
  regexp_Compile bad = None →
  (existsb (fun p => search p host) good = false →
   Proxy.Match regexp_Compile regexp_Match d host uri
   = Panics (RegexpMustCompile bad))
  ∧ (existsb (fun p => search p host) good = true →
     Proxy.Match regexp_Compile regexp_Match d host uri
     = Done (if Proxy.Prefixs d is [] then true
             else existsb (HasPrefix uri) (Proxy.Prefixs d))).
Proof.
  intros HH Hgood Hbad. unfold Proxy.Match. rewrite HH.
  assert (Hlen : (length (good ++ bad :: rest) =? 0)%nat = false)
    by (by destruct good).
  rewrite Hlen. cbn [andb negb]. rewrite match_hosts_app by done.
  split; intros E; rewrite E.
  - cbn [match_hosts]. unfold regexp_MustCompile. by rewrite Hbad.
  - cbn [bind negb]. destruct (Proxy.Prefixs d) as [|q prefixs]; [done|].
    cbn [length Nat.eqb negb]. by rewrite match_prefixs_spec.
Qed.

End MatchEdges.

Lemma Match_without_hosts_witness :
  ∃ b, ∀ host', Proxy.Match literal_Compile literal_Match catch_all host' "/x"
                = Done b.
Proof.
  destruct (Match_without_hosts literal_Compile literal_Match catch_all
              "/x" eq_refl) as (b & Hb & _).
  by exists b.
Defined.

Lemma Match_pattern_not_compiled_witness :
  Proxy.Match literal_Compile literal_Match broken_group "intranet" "/api"
  = Panics (RegexpMustCompile "(internal")
  ∧ Proxy.Match literal_Compile literal_Match broken_group "example.com" "/api"
    = Done true.
Proof.
  destruct (Match_pattern_not_compiled literal_Compile literal_Match
              broken_group "intranet" "/api" ["example"] "(internal" [])
    as [Hpanic _]; [reflexivity | | reflexivity |].
  { repeat constructor. by eexists. }
  destruct (Match_pattern_not_compiled literal_Compile literal_Match
              broken_group "example.com" "/api" ["example"] "(internal" [])
    as [_ Hdone]; [reflexivity | | reflexivity |].
  { repeat constructor. by eexists. }
  split; [apply Hpanic | rewrite Hdone]; reflexivity.
Defined.

(** ** Routing in package upstream *)

(** X12: [Upstream.Match] accepts a request exactly when the group has no
    host or the host of the request is equal to one of its hosts, and the
    group has no prefix or the request URI starts with one of its
    prefixes; a group without hosts and prefixes accepts every request. *)
Theorem Upstream_Match_accepts {HTTP HTTPHeader : Type}
        (us : Upstream.Upstream HTTP HTTPHeader) (c : Upstream.Context) :
  Upstream.Match us c = true ↔
  (Upstream.Hosts us = [] ∨ Upstream.Host c ∈ Upstream.Hosts us)
  ∧ (Upstream.Prefixs us = []
     ∨ ∃ p, p ∈ Upstream.Prefixs us
            ∧ HasPrefix (Upstream.RequestURI c) p = true).
Proof. apply Upstream_Match_rules. Qed.

Section Router.

Context {HTTP HTTPHeader R : Type}.
Variable Handler : Upstream.Upstream HTTP HTTPHeader -> Upstream.Context -> R.

Implicit Types (s : list (Upstream.Upstream HTTP HTTPHeader)).

Lemma findUpstream_None s c :
  Upstream.findUpstream s c = None ↔ ∀ us, us ∈ s → Upstream.Match us c = false.
Proof.
  induction s as [|item s IH]; simpl.
  - split; [intros _ us Hus; by apply elem_of_nil in Hus | done].
  - destruct (Upstream.Match item c) eqn:E.
    + split; [done|]. intros H. specialize (H item). rewrite E in H.
      discriminate H. left.
    + rewrite IH. split.
      * intros H us Hus. apply elem_of_cons in Hus as [->|Hus]; [done|by apply H].
      * intros H us Hus. apply H. by right.
Qed.

Lemma findUpstream_Some s c found :
  Upstream.findUpstream s c = Some found →
  ∃ i, s !! i = Some found ∧ Upstream.Match found c = true
       ∧ ∀ j us, (j < i)%nat → s !! j = Some us → Upstream.Match us c = false.
Proof.
  induction s as [|item s IH]; simpl; [done|].
  destruct (Upstream.Match item c) eqn:E.
  - intros [= <-]. exists 0%nat. split; [done|]. split; [done|]. lia.
  - intros H. destruct (IH H) as (i & Hi & Hm & Hbefore).
    exists (S i). split; [done|]. split; [done|].
    intros [|j] us Hj Hus; simpl in Hus; [by simplify_eq|].
    apply (Hbefore j); [lia | done].
Qed.

Lemma IsSorted_le s : IsSorted s →
  ∀ j i a b, (i ≤ j)%nat → s !! i = Some a → s !! j = Some b →
             (Upstream.Priority a ≤ Upstream.Priority b)%Z.
Proof.
  intros Hs. induction j as [|j IH]; intros i a b Hij Ha Hb.
  - assert (i = 0%nat) as -> by lia. simplify_eq. lia.
  - destruct (decide (i = S j)) as [->|Hne]; [simplify_eq; lia|].
    destruct (lookup_lt_is_Some_2 s j) as [m Hm].
    { apply lookup_lt_Some in Hb. lia. }
    assert (Upstream.Priority a ≤ Upstream.Priority m)%Z
      by (apply (IH i); [lia | done | done]).
    pose proof (Hs j m b Hm Hb) as Hlt. apply Z.ltb_ge in Hlt. lia.
Qed.

(** X13: [Proxy] answers with the error "no match upstream" exactly when
    no upstream of the list matches the request; otherwise it runs the
    handler of the first upstream that matches, and on a sorted list no
    matching upstream has a smaller priority than that one. *)
Theorem Proxy_routes s c :
  (Upstream.Proxy Handler s c = inl Upstream.errNoMatchUpstream
   ↔ ∀ us, us ∈ s → Upstream.Match us c = false)
  ∧ (∀ r, Upstream.Proxy Handler s c = inr r →
       ∃ i found,
         s !! i = Some found ∧ Upstream.Match found c = true
         ∧ r = Handler found c
         ∧ (∀ j us, (j < i)%nat → s !! j = Some us → Upstream.Match us c = false)
         ∧ (IsSorted s →
            ∀ us, us ∈ s → Upstream.Match us c = true →
                  (Upstream.Priority found ≤ Upstream.Priority us)%Z)).
Proof.
  unfold Upstream.Proxy. split.
  - rewrite <- findUpstream_None.
    destruct (Upstream.findUpstream s c); split; done.
  - intros r. destruct (Upstream.findUpstream s c) as [found|] eqn:E; [|done].
    intros [= <-]. destruct (findUpstream_Some s c found E) as (i & Hi & Hm & Hb).
    exists i, found. repeat split; [done..|].
    intros Hs us Hus Hmus. apply list_elem_of_lookup in Hus as [j Hj].
    destruct (decide (j < i)%nat) as [Hlt|Hge].
    + rewrite (Hb j us Hlt Hj) in Hmus. done.
    + apply (IsSorted_le s Hs j i); [lia | done | done].
Qed.

End Router.

Lemma routes_sorted : IsSorted routes.
Proof.
  intros [|[|[|i]]] a b Ha Hb; simpl in Ha, Hb; simplify_eq; reflexivity.
Qed.

Lemma Proxy_routes_witness :
  Upstream.Proxy name_handler routes
    (Upstream.mkContext "10.0.0.7" "api.example.com" "/web/x" ∅ []) = inr "api"
  ∧ ∀ us, us ∈ routes →
          Upstream.Match us
            (Upstream.mkContext "10.0.0.7" "api.example.com" "/web/x" ∅ []) = true →
          (4 ≤ Upstream.Priority us)%Z.
Proof.
  split; [reflexivity|].
  destruct (Proxy_routes name_handler routes
              (Upstream.mkContext "10.0.0.7" "api.example.com" "/web/x" ∅ []))
    as [_ H].
  destruct (H "api" eq_refl) as (i & found & Hi & Hm & Hr & Hb & Hs).
  destruct i as [|i].
  - simpl in Hi. injection Hi as <-. intros us Hus Hmus.
    exact (Hs routes_sorted us Hus Hmus).
  - exfalso. specialize (Hb 0%nat (plain_create cfg_api)).
    assert (Hf : Upstream.Match (plain_create cfg_api)
                   (Upstream.mkContext "10.0.0.7" "api.example.com" "/web/x" ∅ [])
                 = false) by (apply Hb; [lia | reflexivity]).
    vm_compute in Hf. discriminate Hf.
Defined.

Section CreatePriority.

Context {HTTP HTTPHeader : Type}.
Variable HTTP_new : string -> HTTP.
Variable HTTP_Add : HTTP -> string -> HTTP.
Variable HTTP_AddBackup : HTTP -> string -> HTTP.
Variable TrimSpace : string -> string.
Variable ConvertToHTTPHeader : list string -> option HTTPHeader.

Local Abbreviation create :=
  (Upstream.createUpstreamFromBackend
     HTTP_new HTTP_Add HTTP_AddBackup TrimSpace ConvertToHTTPHeader).

Lemma create_Priority backend :
  Upstream.Priority (create backend)
  = priority_of (Upstream.bHosts backend) (Upstream.bPrefixs backend).
Proof.
  rewrite priority_of_length. unfold Upstream.createUpstreamFromBackend. simpl.
  by destruct (length (Upstream.bHosts backend) =? 0)%nat,
              (length (Upstream.bPrefixs backend) =? 0)%nat.
Qed.

(** X14: an upstream built from a configuration gets the priority that
    [RefreshPriority] gives a director with the same hosts and prefixes;
    an upstream with a host is less than any upstream without one, and of
    two upstreams that both have or both lack hosts the one with a prefix
    is less than the one without. *)
Theorem create_priority_order b1 b2 :
  (∀ d, Proxy.Hosts d = Upstream.bHosts b1 →
        Proxy.Prefixs d = Upstream.bPrefixs b1 →
        Priority (RefreshPriority d) = Upstream.Priority (create b1))
  ∧ (Upstream.bHosts b1 ≠ [] → Upstream.bHosts b2 = [] →
     Upstream.Less [create b1; create b2] 0 1 = Done true)
  ∧ ((Upstream.bHosts b1 = [] ↔ Upstream.bHosts b2 = []) →
     Upstream.bPrefixs b1 ≠ [] → Upstream.bPrefixs b2 = [] →
     Upstream.Less [create b1; create b2] 0 1 = Done true).
Proof.
  unfold Upstream.Less. simpl lookup. cbv beta iota.
  rewrite !create_Priority. split; [|split].
  - intros d H1 H2. by rewrite RefreshPriority_Priority, H1, H2.
  - intros H1 H2. rewrite H2. unfold priority_of.
    destruct (Upstream.bHosts b1); [done|].
    by destruct (Upstream.bPrefixs b1), (Upstream.bPrefixs b2).
  - intros Hiff H1 H2. rewrite H2. unfold priority_of.
    destruct (Upstream.bPrefixs b1); [done|].
    destruct (Upstream.bHosts b1), (Upstream.bHosts b2); try done;
      exfalso; destruct Hiff as [Ha Hb]; by (specialize (Ha eq_refl))
                                          || by (specialize (Hb eq_refl)).
Qed.

End CreatePriority.

Lemma create_priority_order_witness :
  Upstream.Less [plain_create cfg_api; plain_create cfg_unknown_policy] 0 1
  = Done true
  ∧ Upstream.Less [plain_create cfg_no_policy; plain_create cfg_unknown_policy] 0 1
    = Done true.
Proof.
  destruct (create_priority_order plain_new plain_Add plain_AddBackup
              ascii_TrimSpace plain_Convert cfg_api cfg_unknown_policy)
    as (_ & Hhost & _).
  destruct (create_priority_order plain_new plain_Add plain_AddBackup
              ascii_TrimSpace plain_Convert cfg_no_policy cfg_unknown_policy)
    as (_ & _ & Hprefix).
  split.
  - apply Hhost; [discriminate | reflexivity].
  - apply Hprefix; [split; reflexivity | discriminate | reflexivity].
Defined.

(** ** Indices are 32-bit values *)

Lemma fnv1a_write_range s : ∀ h, is_uint32 h → is_uint32 (fnv1a_write h s).
Proof.
  induction s as [|b s IH]; intros h Hh; simpl; [done|].
  apply IH. unfold fnv1a_byte, uint32, is_uint32.
  apply Z.mod_pos_bound. lia.
Qed.

Lemma hash_range s : is_uint32 (hash s).
Proof.
  apply fnv1a_write_range. unfold is_uint32, offset32. lia.
Qed.

(** X15: every index that a select function of the package returns, and
    every index that the target picker hands to [GetAvailableUpstream], is
    a 32-bit value, whatever the counter, the random draw, the client
    address, the headers and the cookies are. *)
Theorem indices_are_uint32 :
  (∀ name fn c rnd d,
     selectFuncMap !! name = Some fn → is_uint32 (fn c rnd d).1)
  ∧ (∀ policy c index,
       Upstream.pick policy c = Upstream.CallGetAvailableUpstream index →
       is_uint32 index).
Proof.
  split.
  - intros name fn c rnd d H.
    apply selectFuncMap_cases in H as [[_ ->]|[[_ ->]|[[_ ->]|[_ ->]]]]; simpl.
    + unfold is_uint32. lia.
    + unfold is_uint32, uint32. apply Z.mod_pos_bound. lia.
    + unfold is_uint32, uint32. apply Z.mod_pos_bound. lia.
    + apply hash_range.
  - intros policy c index. unfold Upstream.pick.
    repeat case_match; intros [= <-];
      apply hash_range || (unfold is_uint32; lia).
Qed.

Lemma indices_are_uint32_witness :
  is_uint32 (selectRoundRobin a_client 0 (set_roubin three_live (2 ^ 32 - 1))).1
  ∧ is_uint32 (hash "alice").
Proof.
  destruct indices_are_uint32 as [Hsel Hpick]. split.
  - apply (Hsel "roundRobin"). exact selectFuncMap_roundRobin.
  - apply (Hpick "header:x-user" tagged_request). vm_compute. reflexivity.
Defined.

(** ** The sort interface *)

Lemma swap_at_spec {A : Type} (s : list A) (i j : nat) (a b : A) :
  s !! i = Some a → s !! j = Some b →
  ∃ s', swap_at s i j = Done s'
        ∧ s' ≡ₚ s
        ∧ s' !! i = Some b ∧ s' !! j = Some a
        ∧ (∀ k, k ≠ i → k ≠ j → s' !! k = s !! k)
        ∧ swap_at s' i j = Done s.
Proof.
  intros Ha Hb. unfold swap_at at 1. rewrite Ha, Hb.
  pose proof (lookup_lt_Some _ _ _ Ha) as Hi.
  pose proof (lookup_lt_Some _ _ _ Hb) as Hj.
  eexists. split; [done|].
  assert (Hi' : <[j:=a]> (<[i:=b]> s) !! i = Some b).
  { destruct (decide (i = j)) as [->|Hne].
    - rewrite list_lookup_insert_eq by (by rewrite length_insert). congruence.
    - rewrite list_lookup_insert_ne by done. by rewrite list_lookup_insert_eq. }
  assert (Hj' : <[j:=a]> (<[i:=b]> s) !! j = Some a)
    by (by rewrite list_lookup_insert_eq by (by rewrite length_insert)).
  split; [by apply Permutation_insert_swap|].
  split; [done|]. split; [done|]. split.
  - intros k Hki Hkj. by rewrite !list_lookup_insert_ne.
  - unfold swap_at. rewrite Hi', Hj'. f_equal.
    destruct (decide (i = j)) as [->|Hne].
    + rewrite !list_insert_insert_eq. apply list_insert_id. congruence.
    + rewrite (list_insert_insert_ne _ i j) by done.
      rewrite !list_insert_insert_eq.
      rewrite (list_insert_id s i a) by done. by apply list_insert_id.
Qed.

Lemma swap_at_out_of_range {A : Type} (s : list A) (i j : nat) :
  (length s ≤ i ∨ length s ≤ j)%nat → swap_at s i j = Panics IndexOutOfRange.
Proof.
  unfold swap_at. intros [H|H].
  - by rewrite (lookup_ge_None_2 s i H).
  - rewrite (lookup_ge_None_2 s j H). by destruct (s !! i).
Qed.

(** X16: [Swap] within the bounds exchanges the two elements and leaves
    the others, so the result is a rearrangement of the list, and a second
    [Swap] of the same positions gives the list back; outside the bounds
    it panics.  [Less] within the bounds is the strict order of the
    priorities: nothing is less than itself, and it is transitive.  Both
    [Upstreams] and [Directors] behave so. *)
Theorem Swap_and_Less {HTTP HTTPHeader : Type}
        (us : list (Upstream.Upstream HTTP HTTPHeader)) (ds : list Director)
        (i j k : nat) :
  ((i < length us)%nat → (j < length us)%nat →
   ∃ us', Upstream.Swap us i j = Done us' ∧ us' ≡ₚ us
          ∧ us' !! i = us !! j ∧ us' !! j = us !! i
          ∧ Upstream.Swap us' i j = Done us)
  ∧ ((length us ≤ i ∨ length us ≤ j)%nat →
     Upstream.Swap us i j = Panics IndexOutOfRange)
  ∧ ((i < length ds)%nat → (j < length ds)%nat →
     ∃ ds', Proxy.Swap ds i j = Done ds' ∧ ds' ≡ₚ ds
            ∧ ds' !! i = ds !! j ∧ ds' !! j = ds !! i
            ∧ Proxy.Swap ds' i j = Done ds)
  ∧ ((length ds ≤ i ∨ length ds ≤ j)%nat →
     Proxy.Swap ds i j = Panics IndexOutOfRange)
  ∧ ((i < length us)%nat → Upstream.Less us i i = Done false)
  ∧ (Upstream.Less us i j = Done true → Upstream.Less us j k = Done true →
     Upstream.Less us i k = Done true)
  ∧ ((i < length ds)%nat → Proxy.Less ds i i = Done false)
  ∧ (Proxy.Less ds i j = Done true → Proxy.Less ds j k = Done true →
     Proxy.Less ds i k = Done true).
Proof.
  unfold Upstream.Swap, Proxy.Swap.
  split; [|split; [apply swap_at_out_of_range|
           split; [|split; [apply swap_at_out_of_range|]]]].
  - intros Hi Hj.
    destruct (lookup_lt_is_Some_2 us i Hi) as [a Ha].
    destruct (lookup_lt_is_Some_2 us j Hj) as [b Hb].
    destruct (swap_at_spec us i j a b Ha Hb) as (s' & H1 & H2 & H3 & H4 & _ & H6).
    exists s'. by rewrite Ha, Hb.
  - intros Hi Hj.
    destruct (lookup_lt_is_Some_2 ds i Hi) as [a Ha].
    destruct (lookup_lt_is_Some_2 ds j Hj) as [b Hb].
    destruct (swap_at_spec ds i j a b Ha Hb) as (s' & H1 & H2 & H3 & H4 & _ & H6).
    exists s'. by rewrite Ha, Hb.
  - unfold Upstream.Less, Proxy.Less. split; [|split; [|split]].
    + intros Hi. destruct (lookup_lt_is_Some_2 us i Hi) as [a ->].
      by rewrite Z.ltb_irrefl.
    + destruct (us !! i) as [a|], (us !! j) as [b|], (us !! k) as [c|];
        try done. intros [= H1] [= H2]. f_equal.
      apply Z.ltb_lt in H1, H2. apply Z.ltb_lt. lia.
    + intros Hi. destruct (lookup_lt_is_Some_2 ds i Hi) as [a ->].
      by rewrite Z.ltb_irrefl.
    + destruct (ds !! i) as [a|], (ds !! j) as [b|], (ds !! k) as [c|];
        try done. intros [= H1] [= H2]. f_equal.
      apply Z.ltb_lt in H1, H2. apply Z.ltb_lt. lia.
Qed.

Lemma Swap_and_Less_witness :
  ∃ us', Upstream.Swap routes 0 2 = Done us' ∧ us' ≡ₚ routes
         ∧ Upstream.Swap us' 0 2 = Done routes.
Proof.
  destruct (Swap_and_Less routes [three_live] 0 2 0) as [H _].
  destruct H as (us' & H1 & H2 & _ & _ & H5); [simpl; lia | simpl; lia|].
  by exists us'.
Defined.

(** ** Selection after a cycle of health checks *)

Lemma same_but_live_Policy d d' :
  same_but_live d d' → Proxy.Policy d' = Proxy.Policy d.
Proof. unfold same_but_live. intros <-. by destruct d'. Qed.

(** X17: after a cycle of health checks over a group whose lists have no
    duplicates and whose live backends were configured ones, a selection
    under a registered policy returns a configured backend that passed at
    least three of its five probes, if there is any; if no configured
    backend passed three, the live list is empty and the selection
    panics on the division by zero. *)
Theorem Select_after_HealthCheck funcs fn c rnd d net order :
  NoDup (Backends d) → NoDup (availableBackends d) → live_subset d →
  order ≡ₚ Backends d →
  funcs !! Proxy.Policy d = Some fn →
  (Z.of_nat (length (Backends d)) < 2 ^ 32)%Z →
  ((∀ b, b ∈ Backends d → (successes 5 (b +:+ Ping d) net < 3)%nat) →
   availableBackends (HealthCheck order (d, net)).1 = []
   ∧ (Select funcs c rnd (HealthCheck order (d, net)).1).1
     = Panics DivideByZero)
  ∧ ((∃ b, b ∈ Backends d ∧ (3 ≤ successes 5 (b +:+ Ping d) net)%nat) →
     ∃ b, (Select funcs c rnd (HealthCheck order (d, net)).1).1 = Done b
          ∧ b ∈ Backends d
          ∧ (3 ≤ successes 5 (b +:+ Ping d) net)%nat).
Proof.
  intros HB HL Hsub Hp Hfn H32.
  destruct (HealthCheck_marks_healthy_aux d net order HB HL Hp)
    as (Hin & Hout & Hnd & Hsame).
  set (d' := (HealthCheck order (d, net)).1) in *.
  assert (Hpol : funcs !! Proxy.Policy d' = Some fn)
    by (by rewrite (same_but_live_Policy d d')).
  assert (Hlive : ∀ b, b ∈ availableBackends d' →
            b ∈ Backends d ∧ (3 ≤ successes 5 (b +:+ Ping d) net)%nat).
  { intros b Hb. destruct (decide (b ∈ Backends d)) as [HbB|HbB].
    - split; [done|]. by apply Hin.
    - exfalso. apply HbB, Hsub. by apply Hout. }
  split.
  - intros Hnone.
    assert (E : availableBackends d' = []).
    { destruct (availableBackends d') as [|b l] eqn:E; [done|]. exfalso.
      destruct (Hlive b) as [HbB Hb]; [left|].
      specialize (Hnone b HbB). lia. }
    split; [done|]. by apply (Select_no_live funcs fn).
  - intros (b & HbB & Hb).
    assert (Hbl : b ∈ availableBackends d') by (by apply Hin).
    assert (Hlen : (length (availableBackends d') ≤ length (Backends d))%nat).
    { apply submseteq_length, NoDup_submseteq; [done|].
      intros x Hx. by apply Hlive. }
    destruct (Select_live funcs fn c rnd d' Hpol) as (x & Hx & Hxl).
    + destruct (availableBackends d'); [by apply elem_of_nil in Hbl | simpl; lia].
    + lia.
    + exists x. split; [done|]. by apply Hlive.
Qed.

Lemma Select_after_HealthCheck_witness :
  ∃ b, (Select selectFuncMap a_client 0
          (HealthCheck ["s3"; "s1"; "s2"] (three_live, a_net)).1).1 = Done b
       ∧ b ∈ Backends three_live
       ∧ (3 ≤ successes 5 (b +:+ Ping three_live) a_net)%nat.
Proof.
  assert (H : NoDup ["s1"; "s2"; "s3"])
    by (apply (bool_decide_unpack _); vm_compute; exact I).
  assert (Hp : ["s3"; "s1"; "s2"] ≡ₚ Backends three_live).
  { simpl. apply (Permutation_trans (l' := ["s1"; "s3"; "s2"])).
    - apply Permutation_swap.
    - apply Permutation_skip, Permutation_swap. }
  destruct (Select_after_HealthCheck selectFuncMap selectRoundRobin a_client 0
              three_live a_net ["s3"; "s1"; "s2"]) as [_ Hsome].
  - exact H.
  - exact H.
  - intros x Hx. exact Hx.
  - exact Hp.
  - exact selectFuncMap_roundRobin.
  - simpl. lia.
  - apply Hsome. exists "s1". split; [simpl; left|]. vm_compute. lia.
Defined.

(** ** Matching after a rule is added *)

Lemma existsb_add_str (f : string → bool) t l :
  existsb f (add_str t l) = existsb f l || f t.
Proof.
  unfold add_str. destruct (IncludesString l t) eqn:E.
  - apply IncludesString_spec in E. destruct (f t) eqn:Ef.
    + rewrite orb_true_r. apply existsb_exists. exists t.
      split; [by apply list_elem_of_In | done].
    + by rewrite orb_false_r.
  - rewrite existsb_app. simpl. by rewrite orb_false_r.
Qed.

Lemma AddPrefix_Prefixs p d :
  Proxy.Prefixs (AddPrefix p d) = add_str p (Proxy.Prefixs d).
Proof.
  unfold AddPrefix, add_str. by destruct (IncludesString (Proxy.Prefixs d) p).
Qed.

Lemma AddPrefix_Hosts p d : Proxy.Hosts (AddPrefix p d) = Proxy.Hosts d.
Proof. unfold AddPrefix. by destruct (IncludesString (Proxy.Prefixs d) p). Qed.

Lemma add_str_not_nil t l : add_str t l ≠ [].
Proof.
  unfold add_str. destruct (IncludesString l t) eqn:E.
  - apply IncludesString_spec in E. intros ->. by apply elem_of_nil in E.
  - by destruct l.
Qed.

Section MatchAfterAdd.

Context {Regexp : Type}.
Variable regexp_Compile : string -> option Regexp.
Variable regexp_Match : Regexp -> string -> bool.

Local Abbreviation search := (regexp_search regexp_Compile regexp_Match).

(** X18: on a group whose host patterns compile, a match after
    [AddPrefix] asks what the hosts asked before and, for the path, one of
    the old prefixes or the new one; a match after [AddHost] of a pattern
    that compiles asks for one of the old patterns or the new one, and
    what the prefixes asked before. *)
Theorem Match_after_Add d host uri :
  Forall (fun p => is_Some (regexp_Compile p)) (Proxy.Hosts d) →
  (∀ p, Proxy.Match regexp_Compile regexp_Match (AddPrefix p d) host uri
        = Done ((if Proxy.Hosts d is [] then true
                 else existsb (fun h => search h host) (Proxy.Hosts d))
                && (existsb (HasPrefix uri) (Proxy.Prefixs d) || HasPrefix uri p)))
  ∧ (∀ h, is_Some (regexp_Compile h) →
          Proxy.Match regexp_Compile regexp_Match (AddHost h d) host uri
          = Done ((existsb (fun h => search h host) (Proxy.Hosts d)
                   || search h host)
                  && (if Proxy.Prefixs d is [] then true
                      else existsb (HasPrefix uri) (Proxy.Prefixs d)))).
Proof.
  intros Hvalid. split.
  - intros p. rewrite Match_valid by (by rewrite AddPrefix_Hosts).
    rewrite AddPrefix_Hosts, AddPrefix_Prefixs, <- existsb_add_str.
    pose proof (add_str_not_nil p (Proxy.Prefixs d)).
    by destruct (add_str p (Proxy.Prefixs d)).
  - intros h Hh.
    assert (Hv : Forall (fun p => is_Some (regexp_Compile p))
                        (add_str h (Proxy.Hosts d))).
    { unfold add_str. destruct (IncludesString (Proxy.Hosts d) h); [done|].
      apply Forall_app. split; [done|]. by constructor. }
    rewrite Match_valid by (by rewrite AddHost_Hosts).
    pose proof (existsb_add_str (fun h => search h host) h (Proxy.Hosts d)) as E.
    cbv beta in E. rewrite AddHost_Hosts, AddHost_Prefixs, <- E.
    pose proof (add_str_not_nil h (Proxy.Hosts d)).
    by destruct (add_str h (Proxy.Hosts d)).
Qed.

End MatchAfterAdd.

Lemma Match_after_Add_witness :
  Proxy.Match literal_Compile literal_Match (AddPrefix "/api" catch_all)
              "example.com" "/static/x" = Done false
  ∧ Proxy.Match literal_Compile literal_Match (AddHost "example" catch_all)
                "example.com" "/static/x" = Done true.
Proof.
  destruct (Match_after_Add literal_Compile literal_Match catch_all
              "example.com" "/static/x") as [Hp Hh]; [constructor|].
  split; [apply Hp|]. rewrite Hh; [reflexivity|]. by eexists.
Defined.
